(** * Tag tree and document-library selection logic of the fred frontend

    A shallow embedding of
    - [shared/utils/tagTree.ts]: [fullPath], [buildTree], [findNode],
      [collectDescendantTagIds], [countUniqueDocs];
    - [DocumentLibraryTree.tsx]: [getPrimaryTag], [getDocsForTags],
      [docsInSubtree], [toggleFolderSelection], the folder tri-state
      checkbox and the document checkbox click handler;
    - [DocumentLibraryShareAddTab.tsx]: [handleShare].

    JavaScript strings are modelled as [string]: each character stands for one
    code unit in the range 0..255.  Objects used as dictionaries
    ([Record<string, _>]) are [gmap string _]; the insertion-ordered [Map] of
    a node's children is an association list with distinct keys; a [Set] is
    the list of its elements in insertion order.  The [while] loop of
    [docsInSubtree] runs on fuel, since its [getChildren] argument is any
    function; state setters of the share dialog are writes to an explicit
    state, in a small state-and-exception monad. *)

From Stdlib Require Import Ascii String ZArith.
From stdpp Require Import base list strings gmap.


(** ** JavaScript string helpers *)
Module JsString.

(** Truthiness of a string: [""] is the only falsy string. *)
Definition truthy (s : string) : bool := bool_decide (s ≠ "").

(** White space and line terminators stripped by [String.prototype.trim],
    among the code units below 256: TAB, LF, VT, FF, CR, SP and NBSP. *)
Definition isWhiteSpace (c : ascii) : bool :=
  bool_decide (nat_of_ascii c ∈ [9; 10; 11; 12; 13; 32; 160]).

Fixpoint trimStart (s : string) : string :=
  match s with
  | "" => ""
  | String c s' => if isWhiteSpace c then trimStart s' else s
  end.

Fixpoint trimEnd (s : string) : string :=
  match s with
  | "" => ""
  | String c s' =>
      match trimEnd s' with
      | "" => if isWhiteSpace c then "" else String c ""
      | r => String c r
      end
  end.

(** [s.trim()] *)
Definition trim (s : string) : string := trimEnd (trimStart s).

(** [s.split(sep)] for a one-character separator: never returns the empty
    array, [("").split("/")] is [[""]]. *)
Fixpoint split (sep : ascii) (s : string) : list string :=
  match s with
  | "" => [""]
  | String c s' =>
      if decide (c = sep) then "" :: split sep s'
      else match split sep s' with
           | h :: t => String c h :: t
           | [] => [String c ""]
           end
  end.

(** [arr.filter(Boolean)] on an array of strings. *)
Definition filterBoolean (l : list string) : list string :=
  filter (λ s : string, s ≠ "") l.

(** [arr.join(sep)] *)
Fixpoint join (sep : string) (l : list string) : string :=
  match l with
  | [] => ""
  | [x] => x
  | x :: rest => x +:+ sep +:+ join sep rest
  end.

(** The characters of a string. *)
Fixpoint chars (s : string) : list ascii :=
  match s with
  | "" => []
  | String c s' => c :: chars s'
  end.

(** A string made of white space only (the empty string included). *)
Definition blank (s : string) : Prop :=
  Forall (λ c, isWhiteSpace c = true) (chars s).

(** A segment as [split] followed by [filter(Boolean)] produces them. *)
Definition goodSeg (sep : ascii) (s : string) : Prop :=
  s ≠ "" ∧ sep ∉ chars s.

End JsString.

(** ** A JavaScript [Set<string>]: elements in insertion order *)
Module JsSet.

Abbreviation t := (list string).

Definition empty : t := [].

Definition has (x : string) (s : t) : bool := bool_decide (x ∈ s).

(** [s.add(x)] *)
Definition add (s : t) (x : string) : t :=
  if has x s then s else s ++ [x].

(** [new Set(xs)] *)
Definition ofList (xs : list string) : t := fold_left add xs empty.

(** [s.size] *)
Definition size (s : t) : nat := length s.

End JsSet.

(** ** shared/utils/tagTree.ts *)
Module TagTree.
Import JsString.

(** The fields of [TagWithPermissions] that the code reads. [path] may be
    absent or null, and [item_ids] is guarded by [|| []]. *)
Record Tag := mkTag {
  tag_id : string;
  tag_name : string;
  tag_path : option string;
  tag_item_ids : option (list string);
}.

#[global] Instance Tag_eq_dec : EqDecision Tag.
Proof. solve_decision. Defined.

#[local] Unset Elimination Schemes.
(** [children] is the [Map<string, TagNode>]: keys in insertion order. *)
Inductive TagNode := mkTagNode {
  name : string;
  full : string;
  children : list (string * TagNode);
  tagsHere : list Tag;
}.
#[local] Set Elimination Schemes.

(** [Map.prototype.get] *)
Fixpoint mapGet (seg : string) (m : list (string * TagNode)) : option TagNode :=
  match m with
  | [] => None
  | (k, c) :: m' => if decide (k = seg) then Some c else mapGet seg m'
  end.

(** [Map.prototype.has] *)
Definition mapHas (seg : string) (m : list (string * TagNode)) : bool :=
  bool_decide (is_Some (mapGet seg m)).

(** [Map.prototype.set]: an existing key keeps its position, a new key is
    appended. *)
Fixpoint mapSet (seg : string) (v : TagNode) (m : list (string * TagNode))
  : list (string * TagNode) :=
  match m with
  | [] => [(seg, v)]
  | (k, c) :: m' =>
      if decide (k = seg) then (k, v) :: m' else (k, c) :: mapSet seg v m'
  end.

(** [t.path && t.path.trim() ? `${t.path}/${t.name}` : t.name] *)
Definition fullPath (t : Tag) : string :=
  match tag_path t with
  | Some p =>
      if truthy p && truthy (trim p) then p +:+ "/" +:+ tag_name t
      else tag_name t
  | None => tag_name t
  end.

(** [p.split("/").filter(Boolean)] *)
Definition segments (p : string) : list string :=
  filterBoolean (split "/" p).

Definition withChildren (n : TagNode) (cs : list (string * TagNode)) : TagNode :=
  mkTagNode (name n) (full n) cs (tagsHere n).

Definition pushTag (n : TagNode) (t : Tag) : TagNode :=
  mkTagNode (name n) (full n) (children n) (tagsHere n ++ [t]).

(** The node created for a missing segment:
    [{ name: seg, full: i === 0 ? seg : `${cur.full}/${seg}`,
       children: new Map(), tagsHere: [] }] *)
Definition freshNode (seg : string) (i : nat) (cur : TagNode) : TagNode :=
  mkTagNode seg (if decide (i = 0) then seg else full cur +:+ "/" +:+ seg) [] [].

(** The body of the [for (const t of tags)] loop from the node [cur] on:
    [parts.forEach((seg, i) => ...)] followed by [cur.tagsHere.push(t)].
    The nodes are owned by the tree alone, so the in-place updates of the
    source are written as the rebuilt node: the updated child goes back
    under its key, which keeps its position. [children.get(seg)!] finds a
    node after the [set], so the [None] branch is never taken. *)
Fixpoint insertTag (t : Tag) (parts : list string) (i : nat) (cur : TagNode)
  : TagNode :=
  match parts with
  | [] => pushTag cur t
  | seg :: rest =>
      let cs :=
        if mapHas seg (children cur) then children cur
        else mapSet seg (freshNode seg i cur) (children cur) in
      match mapGet seg cs with
      | Some next => withChildren cur (mapSet seg (insertTag t rest (S i) next) cs)
      | None => cur
      end
  end.

Definition emptyRoot : TagNode := mkTagNode "" "" [] [].

(** One iteration of [for (const t of tags)]. *)
Definition insertStep (root : TagNode) (t : Tag) : TagNode :=
  insertTag t (segments (fullPath t)) 0 root.

Definition buildTree (tags : list Tag) : TagNode :=
  fold_left insertStep tags emptyRoot.

(** The [for (const seg of parts)] loop of [findNode]. *)
Fixpoint findLoop (root cur : TagNode) (parts : list string) : TagNode :=
  match parts with
  | [] => cur
  | seg :: rest =>
      match mapGet seg (children cur) with
      | None => root
      | Some next => findLoop root next rest
      end
  end.

Definition findNode (root : TagNode) (path : option string) : TagNode :=
  match path with
  | None => root
  | Some p => if truthy p then findLoop root root (segments p) else root
  end.

(** The [dfs] of [collectDescendantTagIds]: the ids pushed, in order. *)
Fixpoint dfsIds (n : TagNode) : list string :=
  (tag_id <$> tagsHere n) ++ flat_map (λ kc, dfsIds kc.2) (children n).

Definition collectDescendantTagIds (node : TagNode) : list string :=
  JsSet.ofList (dfsIds node).

(** The [dfs] of [countUniqueDocs], threading the set [docIds]. *)
Fixpoint dfsDocs (n : TagNode) (docIds : JsSet.t) : JsSet.t :=
  fold_left (λ s kc, dfsDocs kc.2 s) (children n)
    (fold_left (λ s t, fold_left JsSet.add (default [] (tag_item_ids t)) s)
       (tagsHere n) docIds).

Definition countUniqueDocs (node : TagNode) : nat :=
  JsSet.size (dfsDocs node JsSet.empty).

(** *** Vocabulary for the statements *)

(** The node denoted by a sequence of segments, if there is one. *)
Fixpoint descend (cur : TagNode) (parts : list string) : option TagNode :=
  match parts with
  | [] => Some cur
  | seg :: rest =>
      match mapGet seg (children cur) with
      | None => None
      | Some next => descend next rest
      end
  end.

(** The names of the nodes met below [cur] on the way along [parts]. *)
Fixpoint namesOnPath (cur : TagNode) (parts : list string) : list string :=
  match parts with
  | [] => []
  | seg :: rest =>
      match mapGet seg (children cur) with
      | None => []
      | Some next => name next :: namesOnPath next rest
      end
  end.

(** [subnode n m]: [m] is [n] or one of its descendants. *)
Inductive subnode : TagNode → TagNode → Prop :=
| subnode_here n : subnode n n
| subnode_child n k c m :
    (k, c) ∈ children n → subnode c m → subnode n m.

(** [treeOk pre n]: [n] sits at the path [pre] of a tree in which every
    child is stored under its own name, a good segment, keys are distinct,
    and [full] is the joined path. *)
Inductive treeOk : list string → TagNode → Prop :=
| treeOk_node pre n :
    full n = join "/" pre →
    NoDup (children n).*1 →
    (∀ k c, (k, c) ∈ children n → goodSeg "/" k) →
    (∀ k c, (k, c) ∈ children n → name c = k) →
    (∀ k c, (k, c) ∈ children n → treeOk (pre ++ [k]) c) →
    treeOk pre n.

End TagTree.

(** ** components/documents/libraries/DocumentLibraryTree.tsx *)
Module DocumentLibraryTree.
Import JsString TagTree.

(** The fields of [DocumentMetadata] that the code reads:
    [identity.document_uid] and [tags?.tag_ids]. *)
Record DocumentMetadata := mkDoc {
  document_uid : string;
  doc_tag_ids : option (list string);
}.

#[global] Instance DocumentMetadata_eq_dec : EqDecision DocumentMetadata.
Proof. solve_decision. Defined.

(** [n.tagsHere?.[0]] *)
Definition getPrimaryTag (n : TagNode) : option Tag := head (tagsHere n).

(** One iteration of a dedup loop on the state ([seen], [out]):
    [if (seen.has(uid)) continue; seen.add(uid); out.push(doc)]. *)
Definition pushUnseen (st : list string * list DocumentMetadata)
    (doc : DocumentMetadata) : list string * list DocumentMetadata :=
  let uid := document_uid doc in
  if JsSet.has uid st.1 then st else (JsSet.add st.1 uid, st.2 ++ [doc]).

Definition getDocsForTags (tagIds : list string)
    (docsByTagId : gmap string (list DocumentMetadata)) : list DocumentMetadata :=
  match tagIds with
  | [] => []
  | _ =>
      (fold_left
         (λ st tagId, fold_left pushUnseen (default [] (docsByTagId !! tagId)) st)
         tagIds (JsSet.empty, [])).2
  end.

(** [(cur.tagsHere ?? []).map((t) => t.id).filter(Boolean)] *)
Definition tagIdsHere (cur : TagNode) : list string :=
  filterBoolean (tag_id <$> tagsHere cur).

Section WithChildren.
(** The caller's [getChildren] prop. *)
Variable getChildren : TagNode → list TagNode.
Variable docsByTagId : gmap string (list DocumentMetadata).

(** The [while (stack.length)] loop of [docsInSubtree]. The head of
    [stack] is the last element of the source's array: [pop] takes the
    head, and pushing the children one by one leaves the last child on
    top. [None]: the loop is still running when the fuel is used up. *)
Fixpoint docsLoop (fuel : nat) (stack : list TagNode)
    (st : list string * list DocumentMetadata)
  : option (list DocumentMetadata) :=
  match stack with
  | [] => Some st.2
  | cur :: rest =>
      match fuel with
      | 0 => None
      | S fuel' =>
          docsLoop fuel'
            (reverse (getChildren cur) ++ rest)
            (fold_left pushUnseen (getDocsForTags (tagIdsHere cur) docsByTagId) st)
      end
  end.

Definition docsInSubtree (fuel : nat) (root : TagNode)
  : option (list DocumentMetadata) :=
  docsLoop fuel [root] (JsSet.empty, []).

(** [(d.tags?.tag_ids ?? []).includes(tag.id)] *)
Definition eligibleFor (tag : Tag) (d : DocumentMetadata) : Prop :=
  tag_id tag ∈ default [] (doc_tag_ids d).

#[global] Instance eligibleFor_dec tag d : Decision (eligibleFor tag d).
Proof. unfold eligibleFor. apply _. Defined.

(** [sel[uid]?.id === tag.id] *)
Definition selectedUnder (sel : gmap string Tag) (tag : Tag) (uid : string) : Prop :=
  tag_id <$> sel !! uid = Some (tag_id tag).

#[global] Instance selectedUnder_dec sel tag uid : Decision (selectedUnder sel tag uid).
Proof. unfold selectedUnder. apply _. Defined.

(** The updater passed to [setSelectedDocs] by [toggleFolderSelection]. *)
Definition toggleUpdater (tag : Tag) (eligible : list DocumentMetadata)
    (prev : gmap string Tag) : gmap string Tag :=
  let anySelectedHere :=
    bool_decide (Exists (λ d, selectedUnder prev tag (document_uid d)) eligible) in
  if anySelectedHere then
    fold_left
      (λ next d,
         let id := document_uid d in
         if decide (selectedUnder next tag id) then delete id next else next)
      eligible prev
  else
    fold_left (λ next d, <[document_uid d := tag]> next) eligible prev.

(** [toggleFolderSelection(node)] as a transformer of the [selectedDocs]
    state. [None]: [docsInSubtree] did not finish within the fuel. *)
Definition toggleFolderSelection (fuel : nat) (node : TagNode)
    (selectedDocs : gmap string Tag) : option (gmap string Tag) :=
  match getPrimaryTag node with
  | None => Some selectedDocs
  | Some tag =>
      subtree ← docsInSubtree fuel node;
      let eligible := filter (eligibleFor tag) subtree in
      match eligible with
      | [] => Some selectedDocs
      | _ => Some (toggleUpdater tag eligible selectedDocs)
      end
  end.

(** *** The folder tri-state of [renderTree] *)
Record TreeProps := mkTreeProps {
  selectedFolder : option string;
  selectedFolderTotal : option Z;
  perTagTotals : option (gmap string Z);
  selectedDocs : gmap string Tag;
}.

Definition isSelected (p : TreeProps) (c : TagNode) : bool :=
  bool_decide (selectedFolder p = Some (full c)).

Definition eligibleDocs (folderTag : option Tag)
    (subtreeDocs : list DocumentMetadata) : list DocumentMetadata :=
  match folderTag with
  | Some tag => filter (eligibleFor tag) subtreeDocs
  | None => []
  end.

(** [folderTag ? perTagTotals?.[folderTag.id] : undefined] *)
Definition cachedTotal (p : TreeProps) (folderTag : option Tag) : option Z :=
  tag ← folderTag; totals ← perTagTotals p; totals !! tag_id tag.

Definition selectionTotalForTag (p : TreeProps) (c : TagNode)
    (folderTag : option Tag) (subtreeDocs : list DocumentMetadata) : Z :=
  match folderTag with
  | Some _ =>
      match isSelected p c, selectedFolderTotal p with
      | true, Some total => total
      | _, _ =>
          default (Z.of_nat (length (eligibleDocs folderTag subtreeDocs)))
            (cachedTotal p folderTag)
      end
  | None => 0%Z
  end.

Definition selectedForTag (p : TreeProps) (folderTag : option Tag)
    (subtreeDocs : list DocumentMetadata) : Z :=
  match folderTag with
  | Some tag =>
      Z.of_nat (length (filter
        (λ d, selectedUnder (selectedDocs p) tag (document_uid d))
        (eligibleDocs folderTag subtreeDocs)))
  | None => 0%Z
  end.

Definition folderChecked (p : TreeProps) (c : TagNode)
    (subtreeDocs : list DocumentMetadata) : bool :=
  let folderTag := getPrimaryTag c in
  bool_decide (0 < selectionTotalForTag p c folderTag subtreeDocs)%Z
  && bool_decide (selectedForTag p folderTag subtreeDocs
                  = selectionTotalForTag p c folderTag subtreeDocs).

Definition folderIndeterminate (p : TreeProps) (c : TagNode)
    (subtreeDocs : list DocumentMetadata) : bool :=
  let folderTag := getPrimaryTag c in
  bool_decide (0 < selectedForTag p folderTag subtreeDocs)%Z
  && bool_decide (selectedForTag p folderTag subtreeDocs
                  < selectionTotalForTag p c folderTag subtreeDocs)%Z.

(** The [(checked, indeterminate)] props of the folder checkbox of [c]. *)
Definition folderCheckbox (fuel : nat) (p : TreeProps) (c : TagNode)
  : option (bool * bool) :=
  subtreeDocs ← docsInSubtree fuel c;
  Some (folderChecked p c subtreeDocs, folderIndeterminate p c subtreeDocs).

End WithChildren.

(** The updater of a document row's checkbox, under its context tag [tag]
    ([folderTag] of the row's folder). *)
Definition docCheckboxUpdater (tag : Tag) (docId : string)
    (prev : gmap string Tag) : gmap string Tag :=
  if decide (selectedUnder prev tag docId) then delete docId prev
  else <[docId := tag]> prev.

(** The [onClick] of the document checkbox: nothing happens without a
    context tag. *)
Definition docCheckboxClick (tag : option Tag) (docId : string)
    (selectedDocs : gmap string Tag) : gmap string Tag :=
  match tag with
  | None => selectedDocs
  | Some tag => docCheckboxUpdater tag docId selectedDocs
  end.

(** The invariant of the dedup loops: the uids of [out] are distinct and
    all recorded in [seen]. *)
Definition dedupInv (st : list string * list DocumentMetadata) : Prop :=
  NoDup (document_uid <$> st.2) ∧
  ∀ uid, uid ∈ document_uid <$> st.2 → uid ∈ st.1.

End DocumentLibraryTree.

(** ** components/documents/libraries/sharing/DocumentLibraryShareAddTab.tsx *)
Module ShareAddTab.
Import JsString TagTree.

(** [DocumentLibraryPendingRecipient] *)
Record Recipient := mkRecipient {
  target_id : string;
  relation : string;
}.

(** A non-nullish [status] value: RTK Query uses HTTP codes and strings
    such as ["FETCH_ERROR"]. *)
Inductive JsStatus :=
| StatusNumber (n : Z)
| StatusString (s : string).

#[global] Instance JsStatus_eq_dec : EqDecision JsStatus.
Proof. solve_decision. Defined.

(** [error.data] when it is an object; [data_detail] is [detail] when it
    is a string. *)
Record ErrorData := mkErrorData {
  data_status : option JsStatus;
  data_detail : option string;
}.

(** What the [catch] clause reads of the thrown value. *)
Record JsError := mkJsError {
  err_status : option JsStatus;
  err_originalStatus : option JsStatus;
  err_data : option ErrorData;
}.

(** The component state. *)
Record State := mkState {
  searchQuery : string;
  pendingRecipients : list Recipient;
  isSharing : bool;
  shareError : option string;
}.

(** [{shareError ? <Alert severity="error">{shareError}</Alert> : null}] *)
Definition alertShown (s : State) : bool :=
  match shareError s with
  | Some m => truthy m
  | None => false
  end.

Inductive Completion (A : Type) :=
| Normal (a : A)
| Throw (e : JsError).
Arguments Normal {A} a.
Arguments Throw {A} e.

Section Handler.
(** The backend behind [shareTag(...).unwrap()], as a transition on an
    abstract world: [None] is a fulfilled request, [Some e] a rejection. *)
Variable World : Type.
Variable shareTag : string → Recipient → World → World * option JsError.
(** The [t] of [useTranslation]: key and interpolated [name]. *)
Variable t : string → option string → string.

(** Computations over the component state and the world that may throw. *)
Definition Eff (A : Type) : Type :=
  State * World → (State * World) * Completion A.

#[local] Instance Eff_ret : MRet Eff := λ A a σ, (σ, Normal a).
#[local] Instance Eff_bind : MBind Eff := λ A B f m σ,
  match m σ with
  | (σ', Normal a) => f a σ'
  | (σ', Throw e) => (σ', Throw e)
  end.

Definition modifyState (f : State → State) : Eff unit :=
  λ σ, ((f σ.1, σ.2), Normal tt).

Definition setSearchQuery (v : string) : Eff unit :=
  modifyState (λ s, mkState v (pendingRecipients s) (isSharing s) (shareError s)).
Definition setPendingRecipients (v : list Recipient) : Eff unit :=
  modifyState (λ s, mkState (searchQuery s) v (isSharing s) (shareError s)).
Definition setIsSharing (v : bool) : Eff unit :=
  modifyState (λ s, mkState (searchQuery s) (pendingRecipients s) v (shareError s)).
Definition setShareError (v : option string) : Eff unit :=
  modifyState (λ s, mkState (searchQuery s) (pendingRecipients s) (isSharing s) v).

(** A call that rejects throws at the [await]. *)
Definition callWorld (f : World → World * option JsError) : Eff unit :=
  λ σ, match f σ.2 with
       | (w', None) => ((σ.1, w'), Normal tt)
       | (w', Some e) => ((σ.1, w'), Throw e)
       end.

(** [for (const x of xs) { body(x) }] *)
Fixpoint forOf {A} (xs : list A) (body : A → Eff unit) : Eff unit :=
  match xs with
  | [] => mret tt
  | x :: xs' => body x ;; forOf xs' body
  end.

(** [try { body } catch (error) { handler(error) } finally { fin }] *)
Definition tryCatchFinally (body : Eff unit) (handler : JsError → Eff unit)
    (fin : Eff unit) : Eff unit :=
  λ σ,
    let r := match body σ with
             | (σ', Normal a) => (σ', Normal a)
             | (σ', Throw e) => handler e σ'
             end in
    match fin r.1 with
    | (σ'', Normal _) => (σ'', r.2)
    | (σ'', Throw e) => (σ'', Throw e)
    end.

(** [error?.status ?? error?.originalStatus ?? error?.data?.status] *)
Definition errorStatus (error : JsError) : option JsStatus :=
  match err_status error with
  | Some s => Some s
  | None =>
      match err_originalStatus error with
      | Some s => Some s
      | None => err_data error ≫= data_status
      end
  end.

(** The message computed by the [catch] clause. *)
Definition errorMessage (tag : Tag) (error : JsError) : string :=
  let isForbidden := bool_decide (errorStatus error = Some (StatusNumber 403)) in
  let forbidden :=
    t "documentLibraryShareDialog.shareForbidden" (Some (tag_name tag)) in
  let message :=
    if isForbidden && truthy forbidden then forbidden
    else t "documentLibraryShareDialog.shareError" None in
  match err_data error ≫= data_detail with
  | Some detail => detail
  | None => message
  end.

(** [handleShare]; [pendingRecipients] is the value of the render in
    which the handler was created. *)
Definition handleShare (tag : Tag)
    (onShared : option (World → World * option JsError)) : Eff unit :=
  λ σ,
    let pending := pendingRecipients σ.1 in
    match pending with
    | [] => (σ, Normal tt)
    | _ =>
        (setIsSharing true ;;
         setShareError None ;;
         tryCatchFinally
           (forOf pending (λ recipient, callWorld (shareTag (tag_id tag) recipient)) ;;
            setPendingRecipients [] ;;
            setSearchQuery "" ;;
            match onShared with
            | Some f => callWorld f
            | None => mret tt
            end)
           (λ error, setShareError (Some (errorMessage tag error)))
           (setIsSharing false)) σ
    end.

(** The requests of the loop alone: the world after them and the first
    rejection, if any. *)
Fixpoint shareAll (tagId : string) (rs : list Recipient) (w : World)
  : World * option JsError :=
  match rs with
  | [] => (w, None)
  | r :: rs' =>
      match shareTag tagId r w with
      | (w', None) => shareAll tagId rs' w'
      | (w', Some e) => (w', Some e)
      end
  end.

End Handler.

End ShareAddTab.


(** ** Vocabulary for the traversals of the document tree view *)
Module DocumentLibraryTreeVocabulary.
Import JsString TagTree DocumentLibraryTree.

(** The [seen] set of a dedup loop records the uids of [out] and no other. *)
Definition seenExact (st : list string * list DocumentMetadata) : Prop :=
  ∀ uid, uid ∈ st.1 ↔ uid ∈ document_uid <$> st.2.

(** [reach getChildren n m]: [m] is [n] or is met from [n] by repeated
    [getChildren]. *)
Inductive reach (getChildren : TagNode → list TagNode) : TagNode → TagNode → Prop :=
| reach_here n : reach getChildren n n
| reach_step n c m :
    c ∈ getChildren n → reach getChildren c m → reach getChildren n m.

(** A document with this uid is loaded under one of the tag ids. *)
Definition loadedUnder (docsByTagId : gmap string (list DocumentMetadata))
    (tagIds : list string) (uid : string) : Prop :=
  ∃ tagId d, tagId ∈ tagIds ∧ d ∈ default [] (docsByTagId !! tagId)
             ∧ document_uid d = uid.

(** The props with another selection map. *)
Definition withSelectedDocs (p : TreeProps) (sel : gmap string Tag) : TreeProps :=
  mkTreeProps (selectedFolder p) (selectedFolderTotal p) (perTagTotals p) sel.

End DocumentLibraryTreeVocabulary.

(** ** The pending recipients of the share dialog *)
Module ShareRecipients.
Import JsString ShareAddTab.

(** [prev.some((item) => item.target_id === newRecipient.target_id)
      ? prev : [...prev, newRecipient]] *)
Definition handleAddRecipient (newRecipient : Recipient)
    (prev : list Recipient) : list Recipient :=
  if bool_decide (Exists (λ item, target_id item = target_id newRecipient) prev)
  then prev else prev ++ [newRecipient].

(** [prev.map((item) => item.target_id === id ? { ...item, relation } : item)] *)
Definition handleRelationChange (id : string) (rel : string)
    (prev : list Recipient) : list Recipient :=
  (λ item, if decide (target_id item = id)
           then mkRecipient (target_id item) rel else item) <$> prev.

(** [prev.filter((item) => item.target_id !== id)] *)
Definition handleRemoveRecipient (id : string) (prev : list Recipient)
  : list Recipient :=
  filter (λ item, target_id item ≠ id) prev.

(** [new Set(pendingRecipients.map((item) => item.target_id))] *)
Definition selectedIds (pendingRecipients : list Recipient) : list string :=
  JsSet.ofList (target_id <$> pendingRecipients).

(** What the user can do to the pending list. *)
Inductive RecipientEvent :=
| AddRecipient (r : Recipient)
| ChangeRelation (id : string) (rel : string)
| RemoveRecipient (id : string).

Definition applyEvent (pending : list Recipient) (ev : RecipientEvent)
  : list Recipient :=
  match ev with
  | AddRecipient r => handleAddRecipient r pending
  | ChangeRelation id rel => handleRelationChange id rel pending
  | RemoveRecipient id => handleRemoveRecipient id pending
  end.

Section Logging.
Context {World : Type}.

(** A backend that also records the recipients it was asked to share with. *)
Definition logged (shareTag : string → Recipient → World → World * option JsError)
    (tagId : string) (r : Recipient) (wl : World * list Recipient)
  : (World * list Recipient) * option JsError :=
  let (w', res) := shareTag tagId r wl.1 in ((w', wl.2 ++ [r]), res).

(** A callback that leaves the record alone. *)
Definition onWorld (f : World → World * option JsError)
    (wl : World * list Recipient) : (World * list Recipient) * option JsError :=
  let (w', res) := f wl.1 in ((w', wl.2), res).

End Logging.

End ShareRecipients.

(** ** More JavaScript helpers: prefixes, suffixes and slices *)
Module JsMore.

(** [s.startsWith(prefix)] *)
Fixpoint startsWith (s prefix : string) : bool :=
  match prefix, s with
  | "", _ => true
  | String c prefix', String d s' => bool_decide (c = d) && startsWith s' prefix'
  | String _ _, "" => false
  end.

(** [s.endsWith(suffix)] *)
Fixpoint endsWith (s suffix : string) : bool :=
  bool_decide (s = suffix) ||
  match s with
  | "" => false
  | String _ s' => endsWith s' suffix
  end.

(** The clamping of a relative index by [Array.prototype.slice]: a negative
    index counts from the end. *)
Definition relativeIndex (len k : Z) : Z :=
  if bool_decide (k < 0)%Z then Z.max (len + k) 0 else Z.min k len.

(** [arr.slice(start, end)] for integer arguments. *)
Definition slice {A} (arr : list A) (start stop : Z) : list A :=
  let len := Z.of_nat (length arr) in
  let from := relativeIndex len start in
  let to := relativeIndex len stop in
  take (Z.to_nat (to - from)) (drop (Z.to_nat from) arr).

End JsMore.

(** ** components/sideBar/SideBarNavigationList.tsx, components/NavigationTabs.tsx
    and app/FredUi.tsx *)
Module Navigation.
Import JsString JsMore.

#[local] Unset Elimination Schemes.
(** The fields of [SideBarNavigationElement] the logic reads. *)
Inductive SideBarNavigationElement := mkElement {
  key : string;
  url : option string;
  children : option (list SideBarNavigationElement);
}.
#[local] Set Elimination Schemes.

(** [isActive(path)] at the location [pathname]. [split] never returns an
    empty array, so [path.split("?")[0]] is a string. *)
Definition isActive (pathname : string) (path : string) : bool :=
  let menuPathBase := default "" (head (split "?" path)) in
  bool_decide (pathname = menuPathBase)
  || startsWith pathname (menuPathBase +:+ "/").

(** [!!children?.some((c) => c.url && isActive(c.url))] *)
Definition isAnyChildActive (pathname : string)
    (cs : option (list SideBarNavigationElement)) : bool :=
  match cs with
  | None => false
  | Some cs =>
      existsb (λ c, match url c with
                    | Some u => truthy u && isActive pathname u
                    | None => false
                    end) cs
  end.

(** The updater of the effect run when the location changes. *)
Definition openActiveGroups (pathname : string)
    (menuItems : list SideBarNavigationElement)
    (prev : gmap string bool) : gmap string bool :=
  fold_left
    (λ next it,
       match children it with
       | Some cs =>
           if isAnyChildActive pathname (Some cs) then <[key it := true]> next
           else next
       | None => next
       end)
    menuItems prev.

(** [openKeys[item.key] || false] *)
Definition isOpen (openKeys : gmap string bool) (k : string) : bool :=
  default false (openKeys !! k).

(** The updater of a click on a group:
    [{ ...prev, [item.key]: !prev[item.key] }] *)
Definition toggleGroup (k : string) (prev : gmap string bool) : gmap string bool :=
  <[k := negb (default false (prev !! k))]> prev.

(** [parts[parts.length - 1]] of [absolutePath.split("/")] *)
Definition getRelativePath (absolutePath : string) : string :=
  default "" (last (split "/" absolutePath)).

(** [baseUrl] of [LoadingScreen] and [FredUiContent], from
    [import.meta.env.BASE_URL]. *)
Definition baseUrl (BASE_URL : option string) : string :=
  let b := default "/" BASE_URL in
  if endsWith b "/" then b else b +:+ "/".

End Navigation.

(** ** components/teamDetails/TeamMembersPage.tsx and
    components/documents/libraries/sharing/DocumentLibraryShareCurrentAccessTab.tsx *)
Module Members.
Import JsString JsMore.

(** [paginatedMembers] from the sorted members. *)
Definition paginatedMembers {A} (sortedMembers : list A)
    (page rowsPerPage : Z) : list A :=
  if bool_decide (0 < rowsPerPage)%Z
  then slice sortedMembers (page * rowsPerPage) (page * rowsPerPage + rowsPerPage)
  else sortedMembers.

(** The fields of [UserSummary] read by [getUserDisplayName]. *)
Record UserSummary := mkUser {
  user_id : string;
  username : option string;
  first_name : option string;
  last_name : option string;
}.

(** [[user.first_name, user.last_name].filter(Boolean).join(" ").trim()] *)
Definition fullName (user : UserSummary) : string :=
  trim (join " " (filterBoolean
                    (option_list (first_name user) ++ option_list (last_name user)))).

(** [user.username ?? (fullName || user.id)] *)
Definition getUserDisplayName (user : UserSummary) : string :=
  match username user with
  | Some n => n
  | None => if truthy (fullName user) then fullName user else user_id user
  end.

End Members.

(** ** The folder totals of DocumentLibraryTree.tsx ([totalsByNode]) *)
Module FolderTotals.
Import JsString TagTree DocumentLibraryTree.

Section Totals.
Variable getChildren : TagNode → list TagNode.
Variable perTagTotals : option (gmap string Z).
Variable documentsByTagId : gmap string (list DocumentMetadata).

(** [tagId ? (perTagTotals?.[tagId] ?? documentsByTagId[tagId]?.length ?? 0) : 0]
    for the id of the primary tag. *)
Definition selfCount (node : TagNode) : Z :=
  match getPrimaryTag node with
  | Some tag =>
      if truthy (tag_id tag) then
        match perTagTotals ≫= (λ totals, totals !! tag_id tag) with
        | Some total => total
        | None =>
            match documentsByTagId !! tag_id tag with
            | Some docs => Z.of_nat (length docs)
            | None => 0%Z
            end
        end
      else 0%Z
  | None => 0%Z
  end.

(** [for (const child of getChildren(node)) childSum += compute(child)],
    threading the memo [m]. *)
Definition sumChildren
    (compute : TagNode → gmap string Z → option (Z * gmap string Z))
    (cs : list TagNode) (m : gmap string Z) : option (Z * gmap string Z) :=
  fold_left
    (λ acc child,
       match acc with
       | Some (childSum, m) =>
           match compute child m with
           | Some (v, m') => Some ((childSum + v)%Z, m')
           | None => None
           end
       | None => None
       end)
    cs (Some (0%Z, m)).

(** [compute(node)] with its memo, keyed by [node.full]. [None]: the
    recursion is deeper than the fuel. *)
Fixpoint compute (fuel : nat) (node : TagNode) (m : gmap string Z)
  : option (Z * gmap string Z) :=
  match fuel with
  | 0 => None
  | S fuel' =>
      match m !! full node with
      | Some total => Some (total, m)
      | None =>
          match sumChildren (compute fuel') (getChildren node) m with
          | Some (childSum, m') =>
              let total := (selfCount node + childSum)%Z in
              Some (total, <[full node := total]> m')
          | None => None
          end
      end
  end.

(** The memo after [compute(tree)]. *)
Definition totalsByNode (fuel : nat) (tree : TagNode) : option (gmap string Z) :=
  snd <$> compute fuel tree ∅.

(** The total of a subtree: the own count of every node in it. *)
Fixpoint subtreeTotal (n : TagNode) : Z :=
  (selfCount n + foldr Z.add 0 ((λ kc, subtreeTotal kc.2) <$> children n))%Z.

(** What [compute] keeps true of the memo in the tree [tree]: an entry for a
    node comes with the right entries for the node and all its
    descendants. *)
Definition memoOk (tree : TagNode) (m : gmap string Z) : Prop :=
  ∀ ps n, descend tree ps = Some n → is_Some (m !! join "/" ps) →
  ∀ qs n', descend n qs = Some n' →
           m !! join "/" (ps ++ qs) = Some (subtreeTotal n').

End Totals.

End FolderTotals.

(** ** Sample data: a small library *)
Module Examples.
Import JsString TagTree DocumentLibraryTree ShareAddTab.

Definition tagSix : Tag := mkTag "t-six" "SIX" None (Some ["d1"; "d2"]).
Definition tagDev : Tag := mkTag "t-dev" "DEV" (Some "SIX") (Some ["d2"; "d3"]).
(** A path made of white space: the tag sits at the top level. *)
Definition tagOps : Tag := mkTag "t-ops" "OPS" (Some "  ") None.

Definition exTags : list Tag := [tagSix; tagDev; tagOps].

Definition nodeDev : TagNode := mkTagNode "DEV" "SIX/DEV" [] [tagDev].
Definition nodeSix : TagNode := mkTagNode "SIX" "SIX" [("DEV", nodeDev)] [tagSix].
Definition nodeOps : TagNode := mkTagNode "OPS" "OPS" [] [tagOps].
Definition exTree : TagNode :=
  mkTagNode "" "" [("SIX", nodeSix); ("OPS", nodeOps)] [].

(** [Array.from(n.children.values())], a [getChildren] without sorting. *)
Definition childNodes (n : TagNode) : list TagNode := (children n).*2.

Definition doc1 : DocumentMetadata := mkDoc "d1" (Some ["t-six"]).
Definition doc2 : DocumentMetadata := mkDoc "d2" (Some ["t-six"; "t-dev"]).
Definition doc3 : DocumentMetadata := mkDoc "d3" (Some ["t-dev"]).

Definition exDocsByTagId : gmap string (list DocumentMetadata) :=
  <["t-six" := [doc1; doc2]]> (<["t-dev" := [doc2; doc3]]> ∅).

(** [d2] is selected in the folder DEV. *)
Definition selDev : gmap string Tag := <["d2" := tagDev]> ∅.

(** Both loaded documents of DEV are selected, and the server reports five
    documents for the tag. *)
Definition propsDev : TreeProps :=
  mkTreeProps None None (Some (<["t-dev" := 5%Z]> ∅))
    (<["d2" := tagDev]> (<["d3" := tagDev]> ∅)).

(** The same selection with no total known. *)
Definition propsDevLoaded : TreeProps :=
  mkTreeProps None None None (<["d2" := tagDev]> (<["d3" := tagDev]> ∅)).

Definition alice : Recipient := mkRecipient "alice" "viewer".
Definition bob : Recipient := mkRecipient "bob" "editor".

Definition exState : State := mkState "al" [alice; bob] false None.

(** A backend that counts the requests and rejects the one for [bob] with
    an empty [detail]. *)
Definition rejectBob (_ : string) (r : Recipient) (n : nat)
  : nat * option JsError :=
  if decide (target_id r = "bob")
  then (S n, Some (mkJsError (Some (StatusNumber 400)) None
                     (Some (mkErrorData None (Some "")))))
  else (S n, None).

(** A backend that rejects every request with status 403 and no body. *)
Definition rejectAll (_ : string) (_ : Recipient) (n : nat)
  : nat * option JsError :=
  (S n, Some (mkJsError (Some (StatusNumber 403)) None None)).

(** A backend that accepts every request. *)
Definition acceptAll (_ : string) (_ : Recipient) (n : nat)
  : nat * option JsError :=
  (S n, None).

(** A [t] that returns the key, as i18next does for a missing resource. *)
Definition tKey (key : string) (_ : option string) : string := key.

End Examples.


(** ** More sample data *)
Module MoreExamples.
Import JsString TagTree DocumentLibraryTree ShareAddTab Navigation Members.

(** Nothing selected, no total known. *)
Definition propsNone : TreeProps := mkTreeProps None None None ∅.

(** Totals reported by the server for two of the tags. *)
Definition exTotals : option (gmap string Z) :=
  Some (<["t-six" := 7%Z]> (<["t-ops" := 1%Z]> ∅)).

Definition aliceOwner : Recipient := mkRecipient "alice" "owner".

(** A callback that throws. *)
Definition throwingCallback (n : nat) : nat * option JsError :=
  (n, Some (mkJsError None None None)).

Definition teamsEntry : SideBarNavigationElement :=
  mkElement "teams" (Some "/teams?tab=mine") None.
Definition knowledgeGroup : SideBarNavigationElement :=
  mkElement "knowledge" None
    (Some [mkElement "docs" (Some "/knowledge?view=documents") None;
           mkElement "ops" (Some "/monitoring") None]).

Definition userNamed : UserSummary :=
  mkUser "u-1" None (Some " Ada ") (Some "Lovelace").
Definition userAnonymous : UserSummary := mkUser "u-2" None (Some " ") None.

End MoreExamples.


(** * Properties *)

(** ** Strings *)
Module JsStringFacts.
Import JsString.

Lemma trimEnd_empty s : trimEnd s = "" ↔ blank s.
Proof.
  unfold blank. induction s as [|c s IH]; simpl.
  - split; [constructor | done].
  - rewrite Forall_cons. destruct (trimEnd s) eqn:E.
    + destruct (isWhiteSpace c); split; try done.
      * intros _. split; [done | by apply IH].
      * by intros [? _].
    + split; [done |]. intros [_ H]. by apply IH in H.
Qed.

Lemma trimStart_blank s : blank (trimStart s) ↔ blank s.
Proof.
  unfold blank. induction s as [|c s IH]; simpl; [done |].
  destruct (isWhiteSpace c) eqn:E.
  - rewrite IH, Forall_cons. naive_solver.
  - done.
Qed.

Lemma trim_truthy s : truthy (trim s) = true ↔ ¬ blank s.
Proof.
  unfold truthy, trim. rewrite bool_decide_eq_true.
  by rewrite trimEnd_empty, trimStart_blank.
Qed.

Lemma not_blank_exists s :
  ¬ blank s ↔ ∃ c, c ∈ chars s ∧ isWhiteSpace c = false.
Proof.
  unfold blank. induction (chars s) as [|c l IH].
  - split; [intros []; constructor | intros (c & Hc & _); inversion Hc].
  - rewrite Forall_cons. destruct (isWhiteSpace c) eqn:E.
    + split.
      * intros H. destruct IH as [IH _].
        destruct IH as (c' & Hc' & H'); [naive_solver |].
        exists c'. split; [by right | done].
      * intros (c' & Hc' & H') [_ Hl]. apply elem_of_cons in Hc' as [->|Hc'].
        { congruence. }
        apply IH; [by exists c' | done].
    + split; [intros _; exists c; split; [by left | done] | intros _ [? _]; done].
Qed.

Lemma chars_app s1 s2 : chars (s1 +:+ s2) = chars s1 ++ chars s2.
Proof. induction s1; simpl; [done | by f_equal]. Qed.

Lemma split_not_nil sep s : split sep s ≠ [].
Proof.
  destruct s as [|c s]; simpl; [done |].
  destruct (decide (c = sep)); [done |]. by destruct (split sep s).
Qed.

Lemma split_sep_free sep s : Forall (λ x, sep ∉ chars x) (split sep s).
Proof.
  induction s as [|c s IH]; simpl.
  - constructor; [set_solver | constructor].
  - destruct (decide (c = sep)).
    + constructor; [set_solver | done].
    + destruct (split sep s) as [|h l]; simpl.
      * constructor; [set_solver | constructor].
      * inversion_clear IH. constructor; [set_solver | done].
Qed.

Lemma split_single sep x : sep ∉ chars x → split sep x = [x].
Proof.
  induction x as [|c x IH]; simpl; [done |]. intros H.
  rewrite decide_False by set_solver. rewrite IH by set_solver. done.
Qed.

Lemma split_app sep x s :
  sep ∉ chars x → split sep (x +:+ String sep s) = x :: split sep s.
Proof.
  induction x as [|c x IH]; simpl; intros H.
  - by rewrite decide_True.
  - rewrite decide_False by set_solver. rewrite IH by set_solver. done.
Qed.

Lemma split_join sep ps :
  ps ≠ [] → Forall (λ x, sep ∉ chars x) ps →
  split sep (join (String sep "") ps) = ps.
Proof.
  induction ps as [|x ps IH]; [done |]. intros _ H.
  inversion_clear H as [|?? Hx Hps]. destruct ps as [|y ps].
  - simpl. by apply split_single.
  - change (join (String sep "") (x :: y :: ps))
      with (x +:+ String sep (join (String sep "") (y :: ps))).
    rewrite split_app by done. by rewrite IH.
Qed.

Lemma filterBoolean_good sep ps :
  Forall (goodSeg sep) ps → filterBoolean ps = ps.
Proof.
  unfold filterBoolean. induction 1 as [|x ps [Hx _] _ IH]; [done |].
  rewrite filter_cons_True by done. by rewrite IH.
Qed.

Lemma segments_join sep ps :
  Forall (goodSeg sep) ps →
  filterBoolean (split sep (join (String sep "") ps)) = ps.
Proof.
  intros H. destruct ps as [|x ps]; [done |].
  rewrite split_join; [by eapply filterBoolean_good | done |].
  eapply Forall_impl; [exact H |]. by intros ? [_ ?].
Qed.

Lemma segments_good sep s :
  Forall (goodSeg sep) (filterBoolean (split sep s)).
Proof.
  unfold filterBoolean. apply Forall_forall. intros x Hx.
  apply list_elem_of_filter in Hx as [Hne Hx]. split; [done |].
  pose proof (split_sep_free sep s) as H.
  rewrite Forall_forall in H. by apply H.
Qed.

Lemma string_app_assoc s1 s2 s3 : (s1 +:+ s2) +:+ s3 = s1 +:+ s2 +:+ s3.
Proof.
  induction s1 as [|c s1 IH]; [done |].
  change (String c ((s1 +:+ s2) +:+ s3) = String c (s1 +:+ s2 +:+ s3)).
  by rewrite IH.
Qed.

Lemma join_snoc sep ps x :
  ps ≠ [] → join sep (ps ++ [x]) = join sep ps +:+ sep +:+ x.
Proof.
  induction ps as [|y ps IH]; [done |]. intros _.
  destruct ps as [|z ps]; [done |].
  change (join sep ((y :: z :: ps) ++ [x]))
    with (y +:+ sep +:+ join sep ((z :: ps) ++ [x])).
  rewrite IH by done. simpl.
  by rewrite !string_app_assoc.
Qed.

End JsStringFacts.

(** ** Sets *)
Module JsSetFacts.

Lemma add_elem s x y : y ∈ JsSet.add s x ↔ y ∈ s ∨ y = x.
Proof.
  unfold JsSet.add, JsSet.has. case_bool_decide as Hx.
  - split; [by left | by intros [?| ->]].
  - rewrite elem_of_app, list_elem_of_singleton. done.
Qed.

Lemma add_NoDup s x : NoDup s → NoDup (JsSet.add s x).
Proof.
  intros Hs. unfold JsSet.add, JsSet.has. case_bool_decide as Hx; [done |].
  apply NoDup_app. split_and!; [done | | apply NoDup_singleton].
  by intros y Hy ->%list_elem_of_singleton.
Qed.

Lemma fold_add_elem xs : ∀ s y,
  y ∈ fold_left JsSet.add xs s ↔ y ∈ s ∨ y ∈ xs.
Proof.
  induction xs as [|x xs IH]; intros s y; simpl.
  - split; [by left | intros [?|[]%elem_of_nil]; done].
  - rewrite IH, add_elem, elem_of_cons. tauto.
Qed.

Lemma fold_add_NoDup xs : ∀ s, NoDup s → NoDup (fold_left JsSet.add xs s).
Proof.
  induction xs as [|x xs IH]; intros s Hs; simpl; [done |].
  by apply IH, add_NoDup.
Qed.

End JsSetFacts.

(** ** The tag tree *)
Module TagTreeFacts.
Import JsString JsStringFacts TagTree.

(** Induction on a node with the property assumed of all its children. *)
Lemma TagNode_ind' (P : TagNode → Prop) :
  (∀ n, Forall (λ kc, P kc.2) (children n) → P n) → ∀ n, P n.
Proof.
  intros step. fix IH 1. intros [nm fl cs ts]. apply step. simpl.
  induction cs as [|[k c] cs IHcs]; constructor; [apply IH | apply IHcs].
Qed.

Lemma mapGet_elem k c m : mapGet k m = Some c → (k, c) ∈ m.
Proof.
  induction m as [|[k' c'] m IH]; simpl; [done |].
  destruct (decide (k' = k)) as [->|]; intros H.
  - injection H as ->. left.
  - right. by apply IH.
Qed.

Lemma mapGet_None k m : mapGet k m = None ↔ k ∉ m.*1.
Proof.
  induction m as [|[k' c'] m IH]; simpl.
  - split; [intros _; apply not_elem_of_nil | done].
  - rewrite not_elem_of_cons. destruct (decide (k' = k)) as [->|]; [naive_solver |].
    rewrite IH. naive_solver.
Qed.

Lemma mapGet_NoDup k c m : NoDup m.*1 → (k, c) ∈ m → mapGet k m = Some c.
Proof.
  induction m as [|[k' c'] m IH]; simpl; intros Hnd Hin.
  - by apply elem_of_nil in Hin.
  - apply NoDup_cons in Hnd as [Hk' Hnd]. apply elem_of_cons in Hin as [Heq|Hin].
    + injection Heq as -> ->. by rewrite decide_True.
    + destruct (decide (k' = k)) as [->|]; [| by apply IH].
      exfalso. apply Hk'. apply list_elem_of_fmap. by exists (k, c).
Qed.

Lemma mapGet_mapSet_eq k v m : mapGet k (mapSet k v m) = Some v.
Proof.
  induction m as [|[k' c'] m IH]; simpl.
  - by rewrite decide_True.
  - destruct (decide (k' = k)) as [->|]; simpl.
    + by rewrite decide_True.
    + by rewrite decide_False.
Qed.

Lemma mapGet_mapSet_ne k k' v m : k' ≠ k → mapGet k' (mapSet k v m) = mapGet k' m.
Proof.
  intros Hne. induction m as [|[k0 c0] m IH]; simpl.
  - by rewrite decide_False.
  - destruct (decide (k0 = k)) as [->|]; simpl.
    + by rewrite !decide_False.
    + by rewrite IH.
Qed.

Lemma mapSet_mapSet k u v m : mapSet k v (mapSet k u m) = mapSet k v m.
Proof.
  induction m as [|[k0 c0] m IH]; simpl.
  - by rewrite decide_True.
  - destruct (decide (k0 = k)) as [->|]; simpl.
    + by rewrite decide_True.
    + rewrite decide_False by done. by rewrite IH.
Qed.

Lemma mapSet_keys k v m :
  (mapSet k v m).*1 = if mapHas k m then m.*1 else m.*1 ++ [k].
Proof.
  unfold mapHas. induction m as [|[k0 c0] m IH]; [done |]. simpl mapSet. simpl mapGet.
  destruct (decide (k0 = k)) as [->|]; [done |].
  rewrite !fmap_cons, IH. by case_bool_decide.
Qed.

Lemma mapSet_NoDup k v m : NoDup m.*1 → NoDup (mapSet k v m).*1.
Proof.
  intros H. rewrite mapSet_keys. unfold mapHas.
  case_bool_decide as Hk; [done |].
  apply NoDup_app. split_and!; [done | | apply NoDup_singleton].
  intros x Hx ->%list_elem_of_singleton. apply Hk.
  destruct (mapGet k m) eqn:E; [done |]. by apply mapGet_None in E.
Qed.

Lemma mapSet_elem k v k' c' m :
  (k', c') ∈ mapSet k v m → (k' = k ∧ c' = v) ∨ (k', c') ∈ m.
Proof.
  induction m as [|[k0 c0] m IH]; simpl.
  - intros Heq%list_elem_of_singleton. injection Heq as -> ->. by left.
  - destruct (decide (k0 = k)) as [->|Hne]; intros [Heq|Hin]%elem_of_cons.
    + injection Heq as -> ->. by left.
    + right. by right.
    + injection Heq as -> ->. right. left.
    + destruct (IH Hin) as [?|?]; [by left | right; by right].
Qed.

(** One step of [insertTag], whether the segment existed or not. *)
Lemma insertTag_cons t seg rest i cur :
  insertTag t (seg :: rest) i cur =
  withChildren cur
    (mapSet seg
       (insertTag t rest (S i)
          (default (freshNode seg i cur) (mapGet seg (children cur))))
       (children cur)).
Proof.
  simpl. unfold mapHas. destruct (mapGet seg (children cur)) as [next|] eqn:E.
  - rewrite bool_decide_eq_true_2 by done. by rewrite E.
  - rewrite bool_decide_eq_false_2 by (by intros []).
    by rewrite mapGet_mapSet_eq, mapSet_mapSet.
Qed.

Lemma insertTag_name_full t parts i cur :
  name (insertTag t parts i cur) = name cur ∧
  full (insertTag t parts i cur) = full cur.
Proof. destruct parts; [done |]. by rewrite insertTag_cons. Qed.

Lemma descend_withChildren n cs seg rest :
  descend (withChildren n cs) (seg :: rest) =
  next ← mapGet seg cs; descend next rest.
Proof. simpl. by destruct (mapGet seg cs). Qed.

(** The tags found at a path after one insertion. *)
Lemma tags_insertTag t parts : ∀ i cur ps,
  tagsHere <$> descend (insertTag t parts i cur) ps =
  if decide (ps `prefix_of` parts)
  then Some (default [] (tagsHere <$> descend cur ps)
             ++ if decide (ps = parts) then [t] else [])
  else tagsHere <$> descend cur ps.
Proof.
  induction parts as [|seg rest IH]; intros i cur ps.
  - by destruct ps as [|s ps].
  - rewrite insertTag_cons. destruct ps as [|s ps].
    + simpl. by rewrite app_nil_r.
    + rewrite descend_withChildren. destruct (decide (s = seg)) as [->|Hne].
      * rewrite mapGet_mapSet_eq. simpl. rewrite IH.
        destruct (decide (ps `prefix_of` rest)) as [Hp|Hp];
          destruct (decide (seg :: ps `prefix_of` seg :: rest)) as [Hq|Hq];
          try (by destruct Hq; apply prefix_cons);
          try (by destruct Hp; eapply prefix_cons_inv_2).
        -- destruct (mapGet seg (children cur)) as [next|] eqn:E; simpl.
           ++ do 2 f_equal. by repeat case_decide; simplify_eq.
           ++ destruct ps; simpl; do 2 f_equal; by repeat case_decide; simplify_eq.
        -- destruct (mapGet seg (children cur)) as [next|] eqn:E; simpl; [done |].
           destruct ps; [| done]. destruct Hp. apply prefix_nil.
      * rewrite mapGet_mapSet_ne by done.
        destruct (decide (s :: ps `prefix_of` seg :: rest)) as [Hq|Hq].
        -- by apply prefix_cons_inv_1 in Hq.
        -- simpl. by destruct (mapGet s (children cur)).
Qed.

(** The tags found at a path after a run of insertions. *)
Lemma tags_fold tags : ∀ root ps,
  tagsHere <$> descend (fold_left insertStep tags root) ps =
  if decide (Exists (λ t, ps `prefix_of` segments (fullPath t)) tags)
  then Some (default [] (tagsHere <$> descend root ps)
             ++ filter (λ t, segments (fullPath t) = ps) tags)
  else tagsHere <$> descend root ps.
Proof.
  induction tags as [|t tags IH]; intros root ps.
  - done.
  - simpl fold_left. rewrite IH.
    change (insertStep root t) with (insertTag t (segments (fullPath t)) 0 root).
    rewrite tags_insertTag.
    set (parts := segments (fullPath t)).
    set (old := default [] (tagsHere <$> descend root ps)).
    assert (Hfilter : filter (λ t, segments (fullPath t) = ps) (t :: tags)
                      = (if decide (ps = parts) then [t] else [])
                        ++ filter (λ t, segments (fullPath t) = ps) tags).
    { destruct (decide (ps = parts)) as [Heq|Hne].
      - by rewrite filter_cons_True.
      - by rewrite filter_cons_False. }
    rewrite Hfilter.
    destruct (decide (Exists _ tags)) as [Hex|Hex];
      destruct (decide (ps `prefix_of` parts)) as [Hp|Hp];
      destruct (decide (Exists _ (t :: tags))) as [Hex'|Hex'];
      try (by destruct Hex'; apply Exists_cons; auto).
    + simpl. by rewrite <- (assoc (++)).
    + simpl. rewrite decide_False; [done |]. by intros ->.
    + assert (filter (λ t, segments (fullPath t) = ps) tags = []) as ->.
      { destruct (filter _ tags) as [|t' l] eqn:E; [done |].
        assert (Ht' : t' ∈ filter (λ t, segments (fullPath t) = ps) tags)
          by (rewrite E; left).
        apply list_elem_of_filter in Ht' as [Heq Ht']. destruct Hex.
        apply Exists_exists. exists t'. by rewrite Heq. }
      by rewrite app_nil_r.
    + apply Exists_cons in Hex' as [?|?]; done.
    + done.
Qed.

Lemma treeOk_full pre n : treeOk pre n → full n = join "/" pre.
Proof. by intros []. Qed.

Lemma treeOk_pushTag pre cur t : treeOk pre cur → treeOk pre (pushTag cur t).
Proof. intros [??????]. by constructor. Qed.

Lemma treeOk_freshNode pre cur seg :
  treeOk pre cur → treeOk (pre ++ [seg]) (freshNode seg (length pre) cur).
Proof.
  intros Hok. destruct Hok as [pre cur Hfull _ _ _ _].
  constructor; unfold freshNode; cbn [full children].
  - destruct pre as [|x pre]; [done |].
    rewrite decide_False by done.
    by rewrite Hfull, (join_snoc "/" (x :: pre)).
  - constructor.
  - intros ?? []%elem_of_nil.
  - intros ?? []%elem_of_nil.
  - intros ?? []%elem_of_nil.
Qed.

(** [insertTag] keeps the tree well formed. *)
Lemma treeOk_insertTag t parts : ∀ pre cur,
  Forall (goodSeg "/") parts → treeOk pre cur →
  treeOk pre (insertTag t parts (length pre) cur).
Proof.
  induction parts as [|seg rest IH]; intros pre cur Hgood Hok.
  - by apply treeOk_pushTag.
  - rewrite insertTag_cons. apply Forall_cons in Hgood as [Hseg Hrest].
    set (next := default (freshNode seg (length pre) cur) (mapGet seg (children cur))).
    assert (Hnext : treeOk (pre ++ [seg]) next ∧ name next = seg).
    { unfold next. destruct (mapGet seg (children cur)) as [c|] eqn:E; simpl.
      - apply mapGet_elem in E. destruct Hok as [?? _ _ _ Hname Hsub]. eauto.
      - split; [by apply treeOk_freshNode | done]. }
    destruct Hnext as [Hnext Hname].
    specialize (IH (pre ++ [seg]) next Hrest Hnext).
    rewrite length_app, Nat.add_1_r in IH.
    destruct Hok as [pre cur Hfull Hnd Hkeys Hnames Hsub].
    constructor; simpl; [done | by apply mapSet_NoDup | | |];
      intros k c [[-> ->]|Hin]%mapSet_elem; eauto.
    by destruct (insertTag_name_full t rest (S (length pre)) next) as [-> _].
Qed.

Lemma treeOk_buildTree tags : treeOk [] (buildTree tags).
Proof.
  unfold buildTree.
  assert (H : treeOk [] emptyRoot).
  { constructor; simpl; [done | constructor | | |]; intros ?? []%elem_of_nil. }
  revert H. generalize emptyRoot. induction tags as [|t tags IH]; intros root H.
  - done.
  - simpl. apply IH. apply (treeOk_insertTag t _ [] root); [| done].
    apply segments_good.
Qed.

Lemma treeOk_descend root ps : ∀ pre n,
  treeOk pre root → descend root ps = Some n →
  treeOk (pre ++ ps) n ∧ Forall (goodSeg "/") ps ∧ namesOnPath root ps = ps.
Proof.
  revert root. induction ps as [|seg rest IH]; intros root pre n Hok; simpl.
  - intros [= <-]. by rewrite app_nil_r.
  - destruct (mapGet seg (children root)) as [next|] eqn:E; [| done].
    intros Hd. apply mapGet_elem in E.
    destruct Hok as [pre root _ _ Hkeys Hnames Hsub].
    destruct (IH next (pre ++ [seg]) n (Hsub _ _ E) Hd) as (Hn & Hgood & Hpath).
    rewrite <- (assoc (++)) in Hn. split_and!; [done | |].
    + constructor; eauto.
    + by rewrite Hpath, (Hnames _ _ E).
Qed.

Lemma treeOk_subnode root n : ∀ pre,
  treeOk pre root → subnode root n → ∃ ps, descend root ps = Some n.
Proof.
  intros pre Hok Hsub. revert pre Hok.
  induction Hsub as [n|n k c m Hin _ IH]; intros pre Hok.
  - by exists [].
  - destruct Hok as [pre n _ Hnd _ _ Hsub].
    destruct (IH _ (Hsub _ _ Hin)) as [ps Hps].
    exists (k :: ps). simpl. by rewrite (mapGet_NoDup k c).
Qed.

Lemma buildTree_name_full tags :
  name (buildTree tags) = "" ∧ full (buildTree tags) = "".
Proof.
  unfold buildTree.
  assert (H : name emptyRoot = "" ∧ full emptyRoot = "") by done.
  revert H. generalize emptyRoot. induction tags as [|t tags IH]; intros root H.
  - done.
  - simpl. apply IH. unfold insertStep.
    destruct (insertTag_name_full t (segments (fullPath t)) 0 root) as [-> ->].
    done.
Qed.

Lemma descend_emptyRoot ps :
  descend emptyRoot ps = if decide (ps = []) then Some emptyRoot else None.
Proof. by destruct ps. Qed.

(** The tags stored at a node of the built tree are the input tags whose
    segments spell the node's path, in input order. *)
Lemma buildTree_tags tags ps n :
  descend (buildTree tags) ps = Some n →
  tagsHere n = filter (λ t, segments (fullPath t) = ps) tags.
Proof.
  intros Hd. pose proof (tags_fold tags emptyRoot ps) as H.
  fold (buildTree tags) in H. rewrite Hd, descend_emptyRoot in H. simpl in H.
  destruct (decide (Exists _ tags)) as [Hex|Hex].
  - injection H as ->. by destruct (decide (ps = [])).
  - destruct (decide (ps = [])) as [->|]; [| done]. injection H as ->.
    destruct (filter _ tags) as [|t' l] eqn:E; [done |].
    assert (Ht' : t' ∈ t' :: l) by left. rewrite <- E in Ht'.
    apply list_elem_of_filter in Ht' as [Heq Ht']. destruct Hex.
    apply Exists_exists. exists t'. split; [done | apply prefix_nil].
Qed.

Lemma buildTree_reaches tags t :
  t ∈ tags → is_Some (descend (buildTree tags) (segments (fullPath t))).
Proof.
  intros Ht. pose proof (tags_fold tags emptyRoot (segments (fullPath t))) as H.
  fold (buildTree tags) in H. rewrite decide_True in H.
  - destruct (descend (buildTree tags) _); [done | discriminate].
  - apply Exists_exists. by exists t.
Qed.


Lemma findLoop_descend root ps : ∀ cur,
  findLoop root cur ps = default root (descend cur ps).
Proof.
  induction ps as [|seg rest IH]; intros cur; simpl; [done |].
  by destruct (mapGet seg (children cur)).
Qed.

Lemma join_good_empty sep ps :
  Forall (goodSeg sep) ps → join (String sep "") ps = "" → ps = [].
Proof.
  destruct 1 as [|x ps [Hx _] _]; [done |]. intros H. destruct Hx.
  destruct ps; [done |]. by destruct x.
Qed.

(** C1: [buildTree] returns a root with empty [name] and [full]; every input
    tag is stored at the node reached from the root along the non-empty
    segments of its [fullPath], which exists; every node of the tree is
    reached along some path, and the node at a path stores exactly the input
    tags whose segments are that path (in input order), is reached through
    nodes named by the segments, and has the joined segments as [full]. *)
Theorem buildTree_places_tags (tags : list Tag) :
  let root := buildTree tags in
  name root = "" ∧ full root = "" ∧
  (∀ t, t ∈ tags →
     ∃ n, descend root (segments (fullPath t)) = Some n ∧ t ∈ tagsHere n) ∧
  (∀ n, subnode root n → ∃ ps, descend root ps = Some n) ∧
  (∀ ps n, descend root ps = Some n →
     tagsHere n = filter (λ t, segments (fullPath t) = ps) tags ∧
     namesOnPath root ps = ps ∧
     full n = join "/" ps).
Proof.
  intros root. pose proof (treeOk_buildTree tags) as Hok. fold root in Hok.
  destruct (buildTree_name_full tags) as [Hname Hfull]. split_and!; try done.
  - intros t Ht. destruct (buildTree_reaches tags t Ht) as [n Hn].
    exists n. split; [done |]. rewrite (buildTree_tags tags _ n Hn).
    by apply list_elem_of_filter.
  - intros n Hn. by eapply treeOk_subnode.
  - intros ps n Hd. split; [by apply buildTree_tags |].
    destruct (treeOk_descend root ps [] n Hok Hd) as (Hn & _ & Hpath).
    split; [done |]. by apply treeOk_full in Hn.
Qed.

(** C4: in a tree built by [buildTree], [findNode] on the [full] of any node
    returns that node, and [findNode] returns the root when the path is
    undefined, empty, or its segments denote no node. *)
Theorem findNode_roundtrip (tags : list Tag) :
  let root := buildTree tags in
  (∀ n, subnode root n → findNode root (Some (full n)) = n) ∧
  (∀ path,
     path = None ∨ path = Some "" ∨
     (∃ p, path = Some p ∧ descend root (segments p) = None) →
     findNode root path = root).
Proof.
  intros root. pose proof (treeOk_buildTree tags) as Hok. fold root in Hok. split.
  - intros n Hn. destruct (treeOk_subnode root n [] Hok Hn) as [ps Hd].
    destruct (treeOk_descend root ps [] n Hok Hd) as (Hfull & Hgood & _).
    apply treeOk_full in Hfull. simpl in Hfull.
    unfold findNode, truthy. rewrite Hfull. case_bool_decide as Hne.
    + unfold segments. rewrite (segments_join "/" ps Hgood).
      by rewrite findLoop_descend, Hd.
    + apply (join_good_empty "/") in Hne; [| done].
      subst ps. by injection Hd.
  - intros path [->|[->|(p & -> & Hd)]]; [done | done |].
    unfold findNode. destruct (truthy p); [| done].
    by rewrite findLoop_descend, Hd.
Qed.

Lemma dfsIds_eq n :
  dfsIds n = (tag_id <$> tagsHere n) ++ flat_map (λ kc, dfsIds kc.2) (children n).
Proof. by destruct n. Qed.

Lemma dfsIds_elem n : ∀ id,
  id ∈ dfsIds n ↔ ∃ m t, subnode n m ∧ t ∈ tagsHere m ∧ tag_id t = id.
Proof.
  induction n as [n IH] using TagNode_ind'. intros id.
  rewrite Forall_forall in IH.
  rewrite dfsIds_eq, elem_of_app, list_elem_of_fmap, list_elem_of_In, in_flat_map.
  split.
  - intros [(t & -> & Ht)|([k c] & Hkc%list_elem_of_In & Hid%list_elem_of_In)].
    + exists n, t. split_and!; [constructor | done | done].
    + apply (IH _ Hkc) in Hid as (m & t & Hm & Ht & Hid).
      exists m, t. split_and!; [by eapply subnode_child | done | done].
  - intros (m & t & Hm & Ht & Hid). inversion Hm as [|? k c ? Hkc Hsub]; subst.
    + left. by exists t.
    + right. exists (k, c). rewrite <- !list_elem_of_In. split; [done |].
      apply (IH _ Hkc). by exists m, t.
Qed.

(** C5: [collectDescendantTagIds] returns a list without duplicates whose
    members are exactly the ids of the tags stored in [tagsHere] of the node
    or of one of its descendants. *)
Theorem collectDescendantTagIds_spec (n : TagNode) :
  NoDup (collectDescendantTagIds n) ∧
  ∀ id, id ∈ collectDescendantTagIds n ↔
        ∃ m t, subnode n m ∧ t ∈ tagsHere m ∧ tag_id t = id.
Proof.
  unfold collectDescendantTagIds, JsSet.ofList. split.
  - apply JsSetFacts.fold_add_NoDup. constructor.
  - intros id. rewrite JsSetFacts.fold_add_elem, <- dfsIds_elem.
    unfold JsSet.empty. rewrite elem_of_nil. tauto.
Qed.

Lemma dfsDocs_eq n docIds :
  dfsDocs n docIds =
  fold_left (λ s kc, dfsDocs kc.2 s) (children n)
    (fold_left (λ s t, fold_left JsSet.add (default [] (tag_item_ids t)) s)
       (tagsHere n) docIds).
Proof. by destruct n. Qed.

Lemma fold_items_spec ts : ∀ s,
  NoDup s →
  NoDup (fold_left (λ s t, fold_left JsSet.add (default [] (tag_item_ids t)) s) ts s) ∧
  ∀ x, x ∈ fold_left (λ s t, fold_left JsSet.add (default [] (tag_item_ids t)) s) ts s ↔
       x ∈ s ∨ ∃ t, t ∈ ts ∧ x ∈ default [] (tag_item_ids t).
Proof.
  induction ts as [|t ts IH]; intros s Hs; simpl.
  - split; [done |]. intros x. split; [by left |].
    by intros [?|(t & []%elem_of_nil & _)].
  - destruct (IH _ (JsSetFacts.fold_add_NoDup (default [] (tag_item_ids t)) s Hs))
      as [Hnd Hel].
    split; [done |]. intros x. rewrite Hel, JsSetFacts.fold_add_elem. split.
    + intros [[?|?]|(t' & Ht' & Hx)]; [by left | right; exists t | right; exists t'];
        (split; [| done]); [left | by right].
    + intros [?|(t' & [->|Ht']%elem_of_cons & Hx)];
        [by left; left | by left; right | right; by exists t'].
Qed.

Lemma fold_children_spec (cs : list (string * TagNode)) :
  Forall (λ kc, ∀ s, NoDup s →
     NoDup (dfsDocs kc.2 s) ∧
     ∀ x, x ∈ dfsDocs kc.2 s ↔
          x ∈ s ∨ ∃ m t, subnode kc.2 m ∧ t ∈ tagsHere m
                         ∧ x ∈ default [] (tag_item_ids t)) cs →
  ∀ s, NoDup s →
    NoDup (fold_left (λ s kc, dfsDocs kc.2 s) cs s) ∧
    ∀ x, x ∈ fold_left (λ s kc, dfsDocs kc.2 s) cs s ↔
         x ∈ s ∨ ∃ kc m t, kc ∈ cs ∧ subnode kc.2 m ∧ t ∈ tagsHere m
                           ∧ x ∈ default [] (tag_item_ids t).
Proof.
  induction 1 as [|kc cs Hkc _ IH]; intros s Hs; simpl.
  - split; [done |]. intros x. split; [by left |].
    by intros [?|(kc & m & t & []%elem_of_nil & _)].
  - destruct (Hkc s Hs) as [Hnd Hel]. destruct (IH _ Hnd) as [Hnd' Hel'].
    split; [done |]. intros x. rewrite Hel', Hel. split.
    + intros [[?|(m & t & Hm & Ht & Hx)]|(kc' & m & t & Hkc' & Hm & Ht & Hx)].
      * by left.
      * right. exists kc, m, t. split_and!; [left | done..].
      * right. exists kc', m, t. split_and!; [by right | done..].
    + intros [?|(kc' & m & t & [->|Hkc']%elem_of_cons & Hm & Ht & Hx)].
      * by left; left.
      * left; right. by exists m, t.
      * right. by exists kc', m, t.
Qed.

Lemma dfsDocs_spec n : ∀ s,
  NoDup s →
  NoDup (dfsDocs n s) ∧
  ∀ x, x ∈ dfsDocs n s ↔
       x ∈ s ∨ ∃ m t, subnode n m ∧ t ∈ tagsHere m ∧ x ∈ default [] (tag_item_ids t).
Proof.
  induction n as [n IH] using TagNode_ind'. intros s Hs. rewrite dfsDocs_eq.
  destruct (fold_items_spec (tagsHere n) s Hs) as [Hnd1 Hel1].
  destruct (fold_children_spec (children n) IH _ Hnd1) as [Hnd2 Hel2].
  split; [done |]. intros x. rewrite Hel2, Hel1. split.
  - intros [[?|(t & Ht & Hx)]|([k c] & m & t & Hkc & Hm & Ht & Hx)].
    + by left.
    + right. exists n, t. split_and!; [constructor | done..].
    + right. exists m, t. split_and!; [by eapply subnode_child | done..].
  - intros [?|(m & t & Hm & Ht & Hx)]; [by left; left |].
    inversion Hm as [|? k c ? Hkc Hsub]; subst.
    + left; right. by exists t.
    + right. by exists (k, c), m, t.
Qed.

(** C6: [countUniqueDocs] returns the cardinality of the set of document
    ids listed in [item_ids] of the tags stored in the node's subtree; an id
    listed by several tags counts once. *)
Theorem countUniqueDocs_spec (n : TagNode) (ids : gset string) :
  (∀ x, x ∈ ids ↔
        ∃ m t, subnode n m ∧ t ∈ tagsHere m ∧ x ∈ default [] (tag_item_ids t)) →
  countUniqueDocs n = size ids.
Proof.
  intros Hids. unfold countUniqueDocs, JsSet.size, size, set_size. simpl.
  destruct (dfsDocs_spec n JsSet.empty) as [Hnd Hel]; [constructor |].
  apply Permutation_length, NoDup_Permutation; [done | apply NoDup_elements |].
  intros x. rewrite elem_of_elements, Hids, Hel. unfold JsSet.empty.
  rewrite elem_of_nil. tauto.
Qed.

(** C8: [fullPath] returns [path + "/" + name] when [path] is present and
    has a character that is not white space, and [name] alone when [path] is
    absent, empty or made of white space only. *)
Theorem fullPath_spec (t : Tag) :
  (∀ p, tag_path t = Some p →
        (∃ c, c ∈ chars p ∧ isWhiteSpace c = false) →
        fullPath t = p +:+ "/" +:+ tag_name t) ∧
  (tag_path t = None ∨ tag_path t = Some "" ∨
   (∃ p, tag_path t = Some p ∧ blank p) →
   fullPath t = tag_name t).
Proof.
  unfold fullPath. split.
  - intros p -> Hc. apply not_blank_exists in Hc.
    assert (Hp : truthy p = true).
    { apply bool_decide_eq_true. intros ->. apply Hc. constructor. }
    apply trim_truthy in Hc. by rewrite Hp, Hc.
  - intros [->|[->|(p & -> & Hb)]]; [done | done |].
    destruct (truthy (trim p)) eqn:E.
    + apply trim_truthy in E. done.
    + by rewrite andb_false_r.
Qed.

(** The sample tags build the sample tree. *)
Example buildTree_exTags : buildTree Examples.exTags = Examples.exTree.
Proof. reflexivity. Qed.

(** Empty segments are dropped, so doubled and trailing slashes are harmless. *)
Example segments_slashes : segments "/SIX//DEV/" = ["SIX"; "DEV"].
Proof. reflexivity. Qed.

Example fullPath_exTags :
  fullPath <$> Examples.exTags = ["SIX"; "SIX/DEV"; "OPS"].
Proof. reflexivity. Qed.

Example findNode_unknown :
  findNode Examples.exTree (Some "SIX/QA") = Examples.exTree.
Proof. reflexivity. Qed.

Example collectDescendantTagIds_exTree :
  collectDescendantTagIds Examples.exTree = ["t-six"; "t-dev"; "t-ops"].
Proof. reflexivity. Qed.

Example countUniqueDocs_exTree : countUniqueDocs Examples.exTree = 3.
Proof. reflexivity. Qed.

Lemma buildTree_places_tags_witness :
  ∃ n, descend (buildTree Examples.exTags) ["SIX"; "DEV"] = Some n ∧
       tagsHere n = [Examples.tagDev] ∧ full n = "SIX/DEV".
Proof.
  destruct (buildTree_places_tags Examples.exTags) as (_ & _ & _ & _ & H).
  assert (Hd : descend (buildTree Examples.exTags) ["SIX"; "DEV"]
               = Some Examples.nodeDev) by reflexivity.
  destruct (H _ _ Hd) as (Htags & _ & Hfull).
  exists Examples.nodeDev. split; [exact Hd |]. split; [| exact Hfull].
  rewrite Htags. reflexivity.
Defined.

Lemma findNode_roundtrip_witness :
  findNode (buildTree Examples.exTags) (Some (full Examples.nodeDev))
  = Examples.nodeDev ∧
  findNode (buildTree Examples.exTags) (Some "SIX/QA")
  = buildTree Examples.exTags.
Proof.
  destruct (findNode_roundtrip Examples.exTags) as [Hnode Hroot]. split.
  - apply Hnode. apply (subnode_child _ "SIX" Examples.nodeSix).
    + change (buildTree Examples.exTags) with Examples.exTree. simpl. left.
    + apply (subnode_child _ "DEV" Examples.nodeDev); [simpl; left | constructor].
  - apply Hroot. right; right. exists "SIX/QA". split; reflexivity.
Defined.

Lemma collectDescendantTagIds_witness :
  NoDup (collectDescendantTagIds Examples.nodeSix) ∧
  "t-dev" ∈ collectDescendantTagIds Examples.nodeSix.
Proof.
  destruct (collectDescendantTagIds_spec Examples.nodeSix) as [Hnd Hel].
  split; [exact Hnd |]. apply Hel. exists Examples.nodeDev, Examples.tagDev.
  split; [| split; [simpl; left | reflexivity]].
  apply (subnode_child _ "DEV" Examples.nodeDev); [simpl; left | constructor].
Defined.

(** [d2] is listed by both tags of the subtree and counted once. *)
Lemma countUniqueDocs_witness :
  countUniqueDocs Examples.nodeSix = size (list_to_set ["d1"; "d2"; "d3"] : gset string).
Proof.
  apply countUniqueDocs_spec. intros x. split.
  - intros Hx. apply elem_of_list_to_set in Hx.
    apply elem_of_cons in Hx as [->|Hx].
    { exists Examples.nodeSix, Examples.tagSix.
      split; [constructor | split; simpl; left]. }
    exists Examples.nodeDev, Examples.tagDev.
    split; [| split; [simpl; left | exact Hx]].
    apply (subnode_child _ "DEV" Examples.nodeDev); [simpl; left | constructor].
  - intros (m & t & Hm & Ht & Hx). apply elem_of_list_to_set.
    inversion Hm as [|? k c ? Hkc Hc]; subst.
    + simpl in Ht. apply list_elem_of_singleton in Ht as ->. simpl in Hx.
      apply elem_of_cons in Hx as [->|Hx]; [left |].
      apply list_elem_of_singleton in Hx as ->. right; left.
    + simpl in Hkc. apply list_elem_of_singleton in Hkc. injection Hkc as -> ->.
      inversion Hc as [|? k c ? Hkc _]; subst.
      * simpl in Ht. apply list_elem_of_singleton in Ht as ->. by right.
      * simpl in Hkc. by apply elem_of_nil in Hkc.
Defined.

Lemma fullPath_spec_witness :
  fullPath Examples.tagDev = "SIX/DEV" ∧ fullPath Examples.tagOps = "OPS".
Proof.
  split.
  - destruct (fullPath_spec Examples.tagDev) as [H _].
    apply (H "SIX"); [reflexivity |]. exists "S"%char. split; [left | reflexivity].
  - destruct (fullPath_spec Examples.tagOps) as [_ H].
    apply H. right; right. exists "  ". split; [reflexivity |].
    repeat constructor.
Defined.

End TagTreeFacts.

(** ** The document tree view *)
Module DocumentLibraryTreeFacts.
Import JsString JsStringFacts TagTree DocumentLibraryTree.

Lemma dedupInv_init : dedupInv (JsSet.empty, []).
Proof. split; [constructor | by intros ? ?%elem_of_nil]. Qed.

Lemma pushUnseen_inv st doc : dedupInv st → dedupInv (pushUnseen st doc).
Proof.
  intros [Hnd Hseen]. unfold pushUnseen, JsSet.has.
  case_bool_decide as Hin; [done |]. split; simpl.
  - rewrite fmap_app. apply NoDup_app. split_and!; [done | | apply NoDup_singleton].
    intros uid Hout ->%list_elem_of_singleton. by apply Hin, Hseen.
  - intros uid. rewrite fmap_app, elem_of_app, JsSetFacts.add_elem.
    intros [?| ->%list_elem_of_singleton]; [left; by apply Hseen | by right].
Qed.

Lemma fold_pushUnseen_inv docs : ∀ st,
  dedupInv st → dedupInv (fold_left pushUnseen docs st).
Proof.
  induction docs as [|d docs IH]; intros st H; simpl; [done |].
  by apply IH, pushUnseen_inv.
Qed.

Lemma getDocsForTags_NoDup tagIds (docsByTagId : gmap string (list DocumentMetadata)) :
  NoDup (document_uid <$> getDocsForTags tagIds docsByTagId).
Proof.
  unfold getDocsForTags. destruct tagIds as [|tagId tagIds]; [constructor |].
  generalize (tagId :: tagIds). intros ids.
  cut (dedupInv (fold_left
         (λ st tagId, fold_left pushUnseen (default [] (docsByTagId !! tagId)) st)
         ids (JsSet.empty, []))); [by intros [] |].
  generalize dedupInv_init. generalize (JsSet.empty, @nil DocumentMetadata).
  induction ids as [|id ids IH]; intros st H; simpl; [done |].
  by apply IH, fold_pushUnseen_inv.
Qed.

Section Traversal.
Variable getChildren : TagNode → list TagNode.
Variable docsByTagId : gmap string (list DocumentMetadata).

Lemma docsLoop_NoDup fuel : ∀ stack st out,
  dedupInv st →
  docsLoop getChildren docsByTagId fuel stack st = Some out →
  NoDup (document_uid <$> out).
Proof.
  induction fuel as [|fuel IH]; intros [|cur rest] st out Hinv; simpl.
  - intros [= <-]. by destruct Hinv.
  - done.
  - intros [= <-]. by destruct Hinv.
  - apply IH. by apply fold_pushUnseen_inv.
Qed.

Lemma docsLoop_more_fuel fuel : ∀ fuel' stack st out,
  fuel ≤ fuel' →
  docsLoop getChildren docsByTagId fuel stack st = Some out →
  docsLoop getChildren docsByTagId fuel' stack st = Some out.
Proof.
  induction fuel as [|fuel IH]; intros fuel' [|cur rest] st out Hle; simpl.
  - intros [= <-]. by destruct fuel'.
  - done.
  - intros [= <-]. by destruct fuel'.
  - destruct fuel' as [|fuel']; [lia |]. simpl. apply IH. lia.
Qed.

(** [getChildren] hands out children of the node only. *)
Hypothesis getChildren_children :
  ∀ n c, c ∈ getChildren n → c ∈ (children n).*2.

(** The loop works off any stack of nodes whose subtrees it works off. *)
Lemma docsLoop_stack (nodes : list TagNode) :
  Forall (λ n, ∀ rest st, ∃ k st', ∀ fuel,
     docsLoop getChildren docsByTagId (k + fuel) (n :: rest) st
     = docsLoop getChildren docsByTagId fuel rest st') nodes →
  ∀ rest st, ∃ k st', ∀ fuel,
    docsLoop getChildren docsByTagId (k + fuel) (nodes ++ rest) st
    = docsLoop getChildren docsByTagId fuel rest st'.
Proof.
  induction 1 as [|n nodes Hn _ IH]; intros rest st.
  - by exists 0, st.
  - destruct (Hn (nodes ++ rest) st) as (k1 & st1 & H1).
    destruct (IH rest st1) as (k2 & st2 & H2).
    exists (k1 + k2), st2. intros fuel.
    rewrite <- Nat.add_assoc. simpl. by rewrite H1, H2.
Qed.

Lemma docsLoop_node (n : TagNode) : ∀ rest st, ∃ k st', ∀ fuel,
  docsLoop getChildren docsByTagId (k + fuel) (n :: rest) st
  = docsLoop getChildren docsByTagId fuel rest st'.
Proof.
  induction n as [n IH] using TagTreeFacts.TagNode_ind'. intros rest st.
  assert (Hch : Forall (λ c, ∀ rest st, ∃ k st', ∀ fuel,
     docsLoop getChildren docsByTagId (k + fuel) (c :: rest) st
     = docsLoop getChildren docsByTagId fuel rest st') (reverse (getChildren n))).
  { apply Forall_forall. intros c Hc%elem_of_reverse%getChildren_children.
    apply list_elem_of_fmap in Hc as (kc & -> & Hkc).
    rewrite Forall_forall in IH. by apply IH. }
  destruct (docsLoop_stack _ Hch rest
              (fold_left pushUnseen (getDocsForTags (tagIdsHere n) docsByTagId) st))
    as (k & st' & Hk).
  exists (S k), st'. intros fuel. simpl. apply Hk.
Qed.

Lemma docsInSubtree_terminates root :
  ∃ fuel out, docsInSubtree getChildren docsByTagId fuel root = Some out.
Proof.
  destruct (docsLoop_node root [] (JsSet.empty, [])) as (k & st' & Hk).
  exists k, st'.2. unfold docsInSubtree. specialize (Hk 0).
  rewrite Nat.add_0_r in Hk. by rewrite Hk.
Qed.

End Traversal.

Section Counting.
Context {A : Type} (P : A → Prop) `{!∀ x, Decision (P x)}.

Lemma length_filter_all (l : list A) :
  length (filter P l) = length l ↔ Forall P l.
Proof.
  induction l as [|x l IH]; simpl; [by split; [constructor |] |].
  rewrite filter_cons, Forall_cons. destruct (decide (P x)); simpl.
  - rewrite <- IH. split; [intros [= ?]; done | intros [_ ->]; done].
  - pose proof (length_filter P l). split; [lia | by intros [? _]].
Qed.

Lemma length_filter_pos (l : list A) :
  0 < length (filter P l) ↔ Exists P l.
Proof.
  induction l as [|x l IH]; simpl.
  - split; [lia | by intros ?%Exists_nil].
  - rewrite filter_cons, Exists_cons. destruct (decide (P x)); simpl.
    + split; [by left | lia].
    + rewrite IH. tauto.
Qed.

Lemma length_filter_short (l : list A) :
  length (filter P l) < length l ↔ Exists (λ x, ¬ P x) l.
Proof.
  induction l as [|x l IH]; simpl.
  - split; [lia | by intros ?%Exists_nil].
  - rewrite filter_cons, Exists_cons. destruct (decide (P x)); simpl.
    + rewrite <- IH. split; [right; lia | intros [?|?]; [done | lia]].
    + pose proof (length_filter P l). split; [by left | lia].
Qed.

End Counting.

Section Toggle.
Variable tag : Tag.

Lemma selectedUnder_delete_ne (m : gmap string Tag) uid uid' :
  uid ≠ uid' → selectedUnder (delete uid' m) tag uid ↔ selectedUnder m tag uid.
Proof. intros H. unfold selectedUnder. by rewrite lookup_delete_ne. Qed.

(** The unselect branch of the updater. *)
Lemma unselect_lookup (eligible : list DocumentMetadata) : ∀ (m : gmap string Tag) uid,
  fold_left
    (λ next d, if decide (selectedUnder next tag (document_uid d))
               then delete (document_uid d) next else next)
    eligible m !! uid =
  if decide (uid ∈ document_uid <$> eligible ∧ selectedUnder m tag uid)
  then None else m !! uid.
Proof.
  induction eligible as [|d ds IH]; intros m uid; [done |].
  cbn [fold_left].
  - rewrite IH. clear IH. destruct (decide (uid = document_uid d)) as [->|Hne].
    + destruct (decide (selectedUnder m tag (document_uid d))) as [Hsel|Hsel].
      * rewrite decide_False, lookup_delete_eq.
        -- rewrite decide_True; [done |]. split; [left | done].
        -- intros [_ H]. unfold selectedUnder in H.
           by rewrite lookup_delete_eq in H.
      * repeat case_decide; try done; naive_solver.
    + assert (Hel : uid ∈ document_uid <$> d :: ds ↔ uid ∈ document_uid <$> ds).
      { rewrite fmap_cons, elem_of_cons. naive_solver. }
      destruct (decide (selectedUnder m tag (document_uid d))) as [Hsel|Hsel].
      * rewrite lookup_delete_ne by done.
        repeat case_decide; try done;
          rewrite ?selectedUnder_delete_ne in * by done; naive_solver.
      * repeat case_decide; try done; naive_solver.
Qed.

(** The select branch of the updater. *)
Lemma select_lookup (eligible : list DocumentMetadata) : ∀ (m : gmap string Tag) uid,
  fold_left (λ next d, <[document_uid d := tag]> next) eligible m !! uid =
  if decide (uid ∈ document_uid <$> eligible) then Some tag else m !! uid.
Proof.
  induction eligible as [|d ds IH]; intros m uid; [done |].
  cbn [fold_left].
  - rewrite IH. clear IH. destruct (decide (uid = document_uid d)) as [->|Hne].
    + assert (document_uid d ∈ document_uid <$> d :: ds)
        by (rewrite fmap_cons; left).
      rewrite lookup_insert_eq. by repeat case_decide.
    + assert (uid ∈ document_uid <$> d :: ds ↔ uid ∈ document_uid <$> ds).
      { rewrite fmap_cons, elem_of_cons. naive_solver. }
      rewrite lookup_insert_ne by done.
      repeat case_decide; try done; naive_solver.
Qed.

End Toggle.


(** C10 (amended): a click on a document checkbox under a context tag changes
    the entry of that document alone: an entry under a tag with the context
    tag's id is removed, any other state of the entry (absent, or under a tag
    with another id) becomes the context tag. Two clicks restore the map when
    the entry was absent or was the context tag; an entry under a tag with
    another id is gone after two clicks. *)
Theorem docCheckboxClick_spec (tag : Tag) (docId : string) (prev : gmap string Tag) :
  let click := docCheckboxClick (Some tag) docId in
  (∀ uid, uid ≠ docId → click prev !! uid = prev !! uid) ∧
  click prev !! docId =
    (if decide (selectedUnder prev tag docId) then None else Some tag) ∧
  (prev !! docId = None ∨ prev !! docId = Some tag → click (click prev) = prev) ∧
  (∀ other, prev !! docId = Some other → tag_id other ≠ tag_id tag →
            click (click prev) = delete docId prev).
Proof.
  intros click. unfold click, docCheckboxClick, docCheckboxUpdater.
  assert (Hset : selectedUnder (<[docId := tag]> prev) tag docId).
  { unfold selectedUnder. by rewrite lookup_insert_eq. }
  assert (Hdel : ¬ selectedUnder (delete docId prev) tag docId).
  { unfold selectedUnder. by rewrite lookup_delete_eq. }
  split_and!.
  - intros uid Hne. case_decide.
    + by rewrite lookup_delete_ne.
    + by rewrite lookup_insert_ne.
  - case_decide.
    + by rewrite lookup_delete_eq.
    + by rewrite lookup_insert_eq.
  - intros [Hnone|Hsome].
    + rewrite (decide_False (P := selectedUnder prev tag docId)).
      * rewrite decide_True by done. by rewrite delete_insert_eq, delete_id.
      * unfold selectedUnder. by rewrite Hnone.
    + rewrite (decide_True (P := selectedUnder prev tag docId)).
      * rewrite decide_False by done. by rewrite insert_delete_eq, insert_id.
      * unfold selectedUnder. by rewrite Hsome.
  - intros other Hother Hid.
    rewrite (decide_False (P := selectedUnder prev tag docId)).
    + rewrite decide_True by done. by rewrite delete_insert_eq.
    + unfold selectedUnder. rewrite Hother. simpl. congruence.
Qed.


(** C9: the lists returned by [getDocsForTags] and [docsInSubtree] hold each
    document uid at most once; [docsInSubtree] does return a list when
    [getChildren] hands out children of the node only. *)
Theorem docs_listed_once
    (docsByTagId : gmap string (list DocumentMetadata))
    (getChildren : TagNode → list TagNode) :
  (∀ tagIds, NoDup (document_uid <$> getDocsForTags tagIds docsByTagId)) ∧
  (∀ fuel root out,
     docsInSubtree getChildren docsByTagId fuel root = Some out →
     NoDup (document_uid <$> out)) ∧
  ((∀ n c, c ∈ getChildren n → c ∈ (children n).*2) →
   ∀ root, ∃ fuel out, docsInSubtree getChildren docsByTagId fuel root = Some out).
Proof.
  split_and!.
  - intros tagIds. apply getDocsForTags_NoDup.
  - intros fuel root out. apply docsLoop_NoDup, dedupInv_init.
  - intros H root. by apply docsInSubtree_terminates.
Qed.

(** [d2] is linked to both tags and listed once; one unit of fuel per node. *)
Example docsInSubtree_nodeSix :
  docsInSubtree Examples.childNodes Examples.exDocsByTagId 2 Examples.nodeSix
  = Some [Examples.doc1; Examples.doc2; Examples.doc3] ∧
  docsInSubtree Examples.childNodes Examples.exDocsByTagId 1 Examples.nodeSix
  = None.
Proof. split; reflexivity. Qed.

Example folderCheckbox_loaded :
  folderCheckbox Examples.childNodes Examples.exDocsByTagId 1
    Examples.propsDevLoaded Examples.nodeDev = Some (true, false).
Proof. reflexivity. Qed.

Lemma docs_listed_once_witness :
  NoDup (document_uid <$> getDocsForTags ["t-six"; "t-dev"] Examples.exDocsByTagId) ∧
  ∃ fuel out,
    docsInSubtree Examples.childNodes Examples.exDocsByTagId fuel Examples.exTree
    = Some out ∧
    NoDup (document_uid <$> out).
Proof.
  destruct (docs_listed_once Examples.exDocsByTagId Examples.childNodes)
    as (Htags & Hsub & Hend).
  split; [apply Htags |].
  destruct (Hend (λ n c Hc, Hc) Examples.exTree) as (fuel & out & Hout).
  exists fuel, out. split; [exact Hout | exact (Hsub _ _ _ Hout)].
Defined.





(** C10, as stated, fails for a document selected under another tag: the
    first click moves [d2] from the tag of DEV to the tag of SIX, the second
    removes it, and the entry under the tag of DEV is lost. *)
Lemma docCheckboxClick_other_tag_counterexample :
  docCheckboxClick (Some Examples.tagSix) "d2"
    (docCheckboxClick (Some Examples.tagSix) "d2" Examples.selDev)
  ≠ Examples.selDev.
Proof.
  intros H. apply (f_equal (λ m : gmap string Tag, m !! "d2")) in H.
  discriminate H.
Qed.

Lemma docCheckboxClick_spec_witness :
  docCheckboxClick (Some Examples.tagSix) "d1"
    (docCheckboxClick (Some Examples.tagSix) "d1" Examples.selDev)
  = Examples.selDev.
Proof.
  destruct (docCheckboxClick_spec Examples.tagSix "d1" Examples.selDev)
    as (_ & _ & Htwice & _).
  apply Htwice. left. reflexivity.
Defined.

End DocumentLibraryTreeFacts.

(** ** The share dialog *)
Module ShareAddTabFacts.
Import JsString TagTree ShareAddTab.

Section Handler.
Context {World : Type}.
Variable shareTag : string → Recipient → World → World * option JsError.
Variable t : string → option string → string.

(** The request loop leaves the component state alone and stops at the
    first rejection. *)
Lemma forOf_shareAll tagId (rs : list Recipient) : ∀ s w,
  forOf World rs (λ r, callWorld World (shareTag tagId r)) (s, w) =
  match shareAll World shareTag tagId rs w with
  | (w', None) => ((s, w'), Normal tt)
  | (w', Some e) => ((s, w'), Throw e)
  end.
Proof.
  induction rs as [|r rs IH]; intros s w; [done |].
  cbn [forOf shareAll]. unfold mbind, Eff_bind, callWorld at 1. cbn [fst snd].
  destruct (shareTag tagId r w) as [w' [e|]]; [done |]. apply IH.
Qed.


End Handler.

Example handleShare_acceptAll :
  handleShare nat Examples.acceptAll Examples.tKey Examples.tagSix None
    (Examples.exState, 0)
  = ((mkState "" [] false None, 2), Normal tt).
Proof. reflexivity. Qed.

(** The first rejection ends the loop: the request for [bob] is not sent. *)
Example handleShare_rejectAll :
  handleShare nat Examples.rejectAll Examples.tKey Examples.tagSix None
    (Examples.exState, 0)
  = ((mkState "al" [Examples.alice; Examples.bob] false
        (Some "documentLibraryShareDialog.shareForbidden"), 1), Normal tt).
Proof. reflexivity. Qed.



End ShareAddTabFacts.

(** ** More on the tag tree: navigation, aggregation and path composition *)
Module TagTreeMoreFacts.
Import JsString JsStringFacts TagTree TagTreeFacts.

Lemma subnode_trans n m k : subnode n m → subnode m k → subnode n k.
Proof.
  induction 1 as [n|n key c m Hin _ IH]; [done |].
  intros Hk. eapply subnode_child; [exact Hin | by apply IH].
Qed.

Lemma descend_subnode ps : ∀ cur n, descend cur ps = Some n → subnode cur n.
Proof.
  induction ps as [|seg rest IH]; intros cur n; simpl.
  - intros [= <-]. constructor.
  - destruct (mapGet seg (children cur)) as [next|] eqn:E; [| done].
    intros Hd. eapply subnode_child; [by apply mapGet_elem | by apply IH].
Qed.

(** [findNode] stays inside the tree it is given: whatever the path, the
    node returned is the root or one of its descendants. *)
Theorem findNode_in_tree (root : TagNode) (path : option string) :
  subnode root (findNode root path).
Proof.
  unfold findNode. destruct path as [p|]; [| constructor].
  destruct (truthy p); [| constructor]. rewrite findLoop_descend.
  destruct (descend root (segments p)) as [n|] eqn:E; simpl.
  - by eapply descend_subnode.
  - constructor.
Qed.

(** Looking up the full path of an input tag in the built tree finds the
    folder that holds the tag. *)
Theorem findNode_fullPath_holds_tag (tags : list Tag) (t : Tag) :
  t ∈ tags →
  t ∈ tagsHere (findNode (buildTree tags) (Some (fullPath t))).
Proof.
  intros Ht. destruct (buildTree_reaches tags t Ht) as [n Hn].
  assert (Hin : t ∈ tagsHere n).
  { rewrite (buildTree_tags tags _ n Hn). by apply list_elem_of_filter. }
  unfold findNode, truthy. case_bool_decide as Hp.
  - by rewrite findLoop_descend, Hn.
  - rewrite Hp in Hn. by injection Hn as <-.
Qed.

(** Splitting distributes over a separator put between two strings. *)
Lemma split_app_sep sep a b :
  split sep (a +:+ String sep b) = split sep a ++ split sep b.
Proof.
  induction a as [|c a IH]; simpl.
  - by rewrite decide_True.
  - destruct (decide (c = sep)); [by rewrite IH |].
    rewrite IH. pose proof (split_not_nil sep a) as Hne.
    by destruct (split sep a).
Qed.

(** The folder of a tag: the segments of a non-blank [path] followed by
    those of [name]; the segments of [name] alone when [path] is absent or
    blank. *)
Theorem segments_fullPath (t : Tag) :
  (∀ p, tag_path t = Some p → ¬ blank p →
        segments (fullPath t) = segments p ++ segments (tag_name t)) ∧
  (tag_path t = None ∨ (∃ p, tag_path t = Some p ∧ blank p) →
   segments (fullPath t) = segments (tag_name t)).
Proof.
  unfold fullPath. split.
  - intros p -> Hb.
    assert (Hp : truthy p = true).
    { apply bool_decide_eq_true. intros ->. apply Hb. constructor. }
    apply trim_truthy in Hb. rewrite Hp, Hb. simpl.
    unfold segments, filterBoolean.
    change (p +:+ "/" +:+ tag_name t) with (p +:+ String "/" (tag_name t)).
    by rewrite split_app_sep, filter_app.
  - intros [->|(p & -> & Hb)]; [done |].
    destruct (truthy (trim p)) eqn:E.
    + by apply trim_truthy in E.
    + by rewrite andb_false_r.
Qed.

(** What [Map.set] does to a traversal of the children. *)
Lemma flat_map_mapSet {B} (f : string * TagNode → list B) k v m :
  match mapGet k m with
  | Some c => ∃ rest, flat_map f m ≡ₚ f (k, c) ++ rest ∧
                      flat_map f (mapSet k v m) ≡ₚ f (k, v) ++ rest
  | None => flat_map f (mapSet k v m) = flat_map f m ++ f (k, v)
  end.
Proof.
  induction m as [|[k0 c0] m IH]; simpl.
  - by rewrite app_nil_r.
  - destruct (decide (k0 = k)) as [->|Hne]; simpl.
    + by exists (flat_map f m).
    + destruct (mapGet k m) as [c|].
      * destruct IH as (rest & H1 & H2). exists (f (k0, c0) ++ rest). split.
        -- rewrite H1. rewrite !(assoc (++)). apply Permutation_app_tail.
           apply Permutation_app_comm.
        -- rewrite H2. rewrite !(assoc (++)). apply Permutation_app_tail.
           apply Permutation_app_comm.
      * by rewrite IH, (assoc (++)).
Qed.

(** The ids met by the traversal after one insertion. *)
Lemma dfsIds_insertTag t parts : ∀ i cur,
  dfsIds (insertTag t parts i cur) ≡ₚ tag_id t :: dfsIds cur.
Proof.
  induction parts as [|seg rest IH]; intros i cur.
  - rewrite !dfsIds_eq. simpl. rewrite fmap_app. simpl.
    rewrite <- (assoc (++)). simpl. symmetry. apply Permutation_middle.
  - rewrite insertTag_cons, (dfsIds_eq (withChildren _ _)), (dfsIds_eq cur).
    cbn [tagsHere children withChildren].
    set (next := default (freshNode seg i cur) (mapGet seg (children cur))).
    pose proof (flat_map_mapSet (λ kc, dfsIds kc.2) seg
                  (insertTag t rest (S i) next) (children cur)) as Hset.
    specialize (IH (S i) next). unfold next in *.
    destruct (mapGet seg (children cur)) as [c|]; simpl in *.
    + destruct Hset as (others & H1 & H2). rewrite H2, H1, IH. simpl.
      symmetry. apply Permutation_middle.
    + rewrite Hset, IH.
      rewrite (assoc (++)). symmetry. apply Permutation_cons_append.
Qed.

(** Every input tag is stored exactly once: on a built tree, the ids pushed
    by the traversal of [collectDescendantTagIds] are the ids of the input
    tags, each as often as it occurs in the input. *)
Theorem dfsIds_buildTree (tags : list Tag) :
  dfsIds (buildTree tags) ≡ₚ tag_id <$> tags.
Proof.
  unfold buildTree.
  cut (∀ root, dfsIds (fold_left insertStep tags root)
               ≡ₚ dfsIds root ++ (tag_id <$> tags)).
  { intros H. by rewrite H. }
  induction tags as [|t tags IH]; intros root; simpl.
  - by rewrite app_nil_r.
  - rewrite IH. unfold insertStep at 1. rewrite dfsIds_insertTag.
    simpl. apply Permutation_middle.
Qed.

(** On a built tree [collectDescendantTagIds] of the root lists, without
    duplicates, exactly the ids of the input tags. *)
Theorem collectDescendantTagIds_buildTree (tags : list Tag) :
  NoDup (collectDescendantTagIds (buildTree tags)) ∧
  ∀ id, id ∈ collectDescendantTagIds (buildTree tags) ↔
        ∃ t, t ∈ tags ∧ tag_id t = id.
Proof.
  unfold collectDescendantTagIds, JsSet.ofList. split.
  - apply JsSetFacts.fold_add_NoDup. constructor.
  - intros id. rewrite JsSetFacts.fold_add_elem, dfsIds_buildTree.
    rewrite list_elem_of_fmap. unfold JsSet.empty. rewrite elem_of_nil.
    split; [intros [[]|(t & -> & ?)]; by exists t | intros (t & ? & <-)].
    right. by exists t.
Qed.

(** The tags stored in a built tree are the input tags. *)
Lemma buildTree_stored tags t :
  (∃ m, subnode (buildTree tags) m ∧ t ∈ tagsHere m) ↔ t ∈ tags.
Proof.
  split.
  - intros (m & Hm & Ht).
    destruct (treeOk_subnode _ m [] (treeOk_buildTree tags) Hm) as [ps Hps].
    rewrite (buildTree_tags tags ps m Hps) in Ht.
    by apply list_elem_of_filter in Ht as [_ ?].
  - intros Ht. destruct (buildTree_reaches tags t Ht) as [n Hn]. exists n.
    split; [by eapply descend_subnode |].
    rewrite (buildTree_tags tags _ n Hn). by apply list_elem_of_filter.
Qed.

(** On a built tree [countUniqueDocs] of the root is the number of distinct
    document ids listed by the input tags. *)
Theorem countUniqueDocs_buildTree (tags : list Tag) (ids : gset string) :
  (∀ x, x ∈ ids ↔ ∃ t, t ∈ tags ∧ x ∈ default [] (tag_item_ids t)) →
  countUniqueDocs (buildTree tags) = size ids.
Proof.
  intros Hids. unfold countUniqueDocs, JsSet.size, size, set_size. simpl.
  destruct (dfsDocs_spec (buildTree tags) JsSet.empty) as [Hnd Hel]; [constructor |].
  apply Permutation_length, NoDup_Permutation; [done | apply NoDup_elements |].
  intros x. rewrite elem_of_elements, Hids, Hel. unfold JsSet.empty.
  rewrite elem_of_nil. split.
  - intros [[]|(m & t & Hm & Ht & Hx)]. exists t. split; [| done].
    apply buildTree_stored. by exists m.
  - intros (t & Ht & Hx). right.
    apply buildTree_stored in Ht as (m & Hm & Ht). by exists m, t.
Qed.

(** The aggregations grow towards the root: a descendant contributes no tag
    id and no document that its ancestor misses, so a folder never counts
    fewer documents than one of its subfolders. *)
Theorem aggregations_monotone (n m : TagNode) :
  subnode n m →
  collectDescendantTagIds m ⊆ collectDescendantTagIds n ∧
  countUniqueDocs m ≤ countUniqueDocs n.
Proof.
  intros Hsub. split.
  - intros id. unfold collectDescendantTagIds, JsSet.ofList.
    rewrite !JsSetFacts.fold_add_elem, !dfsIds_elem.
    intros [?|(k & t & Hk & Ht)]; [by left | right].
    exists k, t. split; [by eapply subnode_trans | done].
  - unfold countUniqueDocs, JsSet.size.
    destruct (dfsDocs_spec m JsSet.empty) as [Hndm Helm]; [constructor |].
    destruct (dfsDocs_spec n JsSet.empty) as [Hndn Heln]; [constructor |].
    apply submseteq_length, NoDup_submseteq; [done |].
    intros x. rewrite Helm, Heln.
    intros [?|(k & t & Hk & Ht)]; [by left | right].
    exists k, t. split; [by eapply subnode_trans | done].
Qed.

Example findNode_tagOps :
  findNode Examples.exTree (Some (fullPath Examples.tagOps)) = Examples.nodeOps.
Proof. reflexivity. Qed.

Lemma findNode_fullPath_holds_tag_witness :
  Examples.tagDev
  ∈ tagsHere (findNode (buildTree Examples.exTags) (Some (fullPath Examples.tagDev))).
Proof. apply findNode_fullPath_holds_tag. right. left. Defined.

Lemma segments_fullPath_witness :
  segments (fullPath Examples.tagDev) = segments "SIX" ++ segments "DEV" ∧
  segments (fullPath Examples.tagOps) = segments "OPS".
Proof.
  split.
  - apply (proj1 (segments_fullPath Examples.tagDev) "SIX" eq_refl).
    intros H. inversion H as [|?? Hc _]. discriminate Hc.
  - apply (proj2 (segments_fullPath Examples.tagOps)).
    right. exists "  ". split; [reflexivity | repeat constructor].
Defined.

Lemma countUniqueDocs_buildTree_witness :
  countUniqueDocs (buildTree Examples.exTags)
  = size (list_to_set ["d1"; "d2"; "d3"] : gset string).
Proof.
  apply countUniqueDocs_buildTree. intros x. rewrite elem_of_list_to_set. split.
  - intros [->|Hx]%elem_of_cons.
    + exists Examples.tagSix. split; [left | left].
    + exists Examples.tagDev. split; [right; left | exact Hx].
  - intros (t & Ht & Hx).
    apply elem_of_cons in Ht as [->|Ht]; simpl in Hx.
    { apply elem_of_cons in Hx as [->|Hx]; [left | right].
      apply list_elem_of_singleton in Hx as ->. left. }
    apply elem_of_cons in Ht as [->|Ht]; simpl in Hx; [by right |].
    apply list_elem_of_singleton in Ht as ->. simpl in Hx.
    by apply elem_of_nil in Hx.
Defined.

Lemma aggregations_monotone_witness :
  countUniqueDocs Examples.nodeDev ≤ countUniqueDocs Examples.nodeSix.
Proof.
  apply (aggregations_monotone Examples.nodeSix Examples.nodeDev).
  apply (subnode_child _ "DEV" Examples.nodeDev); [simpl; left | constructor].
Defined.

End TagTreeMoreFacts.

(** ** More on the document tree view: what the traversals collect, and how
    the folder toggle and the folder checkbox fit together *)
Module DocumentLibraryTreeMoreFacts.
Import JsString JsStringFacts TagTree DocumentLibraryTree.
Import DocumentLibraryTreeVocabulary DocumentLibraryTreeFacts.

Lemma seenExact_init : seenExact (JsSet.empty, []).
Proof. intros uid. simpl. by rewrite !elem_of_nil. Qed.

Lemma pushUnseen_seenExact st doc : seenExact st → seenExact (pushUnseen st doc).
Proof.
  intros Hst uid. unfold pushUnseen, JsSet.has. case_bool_decide as Hin; [done |].
  simpl. rewrite fmap_app, elem_of_app, JsSetFacts.add_elem, (Hst uid).
  simpl. by rewrite list_elem_of_singleton.
Qed.

Lemma pushUnseen_uids st doc uid :
  seenExact st →
  uid ∈ document_uid <$> (pushUnseen st doc).2 ↔
  uid ∈ document_uid <$> st.2 ∨ uid = document_uid doc.
Proof.
  intros Hst. unfold pushUnseen, JsSet.has. case_bool_decide as Hin; simpl.
  - split; [by left |]. intros [?| ->]; [done | by apply Hst].
  - rewrite fmap_app, elem_of_app. simpl. by rewrite list_elem_of_singleton.
Qed.

Lemma pushUnseen_docs st doc d :
  d ∈ (pushUnseen st doc).2 → d ∈ st.2 ∨ d = doc.
Proof.
  unfold pushUnseen. destruct (JsSet.has _ _); simpl; [by left |].
  rewrite elem_of_app, list_elem_of_singleton. tauto.
Qed.

Lemma fold_pushUnseen_spec docs : ∀ st,
  seenExact st →
  seenExact (fold_left pushUnseen docs st) ∧
  (∀ uid, uid ∈ document_uid <$> (fold_left pushUnseen docs st).2 ↔
          uid ∈ document_uid <$> st.2 ∨ uid ∈ document_uid <$> docs) ∧
  (∀ d, d ∈ (fold_left pushUnseen docs st).2 → d ∈ st.2 ∨ d ∈ docs).
Proof.
  induction docs as [|doc docs IH]; intros st Hst; simpl.
  - split_and!; [done | | by left]. intros uid. rewrite elem_of_nil. tauto.
  - destruct (IH _ (pushUnseen_seenExact st doc Hst)) as (Hex & Huid & Hdoc).
    split_and!; [done | |].
    + intros uid. rewrite Huid, pushUnseen_uids, elem_of_cons by done. tauto.
    + intros d [Hd|Hd]%Hdoc; [| by right; right].
      apply pushUnseen_docs in Hd as [?| ->]; [by left | right; left].
Qed.

Lemma fold_tags_spec (docsByTagId : gmap string (list DocumentMetadata)) tagIds :
  ∀ st, seenExact st →
  let st' := fold_left
    (λ st tagId, fold_left pushUnseen (default [] (docsByTagId !! tagId)) st)
    tagIds st in
  (∀ uid, uid ∈ document_uid <$> st'.2 ↔
          uid ∈ document_uid <$> st.2 ∨ loadedUnder docsByTagId tagIds uid) ∧
  (∀ d, d ∈ st'.2 →
        d ∈ st.2 ∨ ∃ tagId, tagId ∈ tagIds ∧ d ∈ default [] (docsByTagId !! tagId)).
Proof.
  induction tagIds as [|tagId tagIds IH]; intros st Hst; simpl.
  - split; [| by left]. intros uid. split; [by left |].
    by intros [?|(? & ? & []%elem_of_nil & _)].
  - destruct (fold_pushUnseen_spec (default [] (docsByTagId !! tagId)) st Hst)
      as (Hex & Huid & Hdoc).
    destruct (IH _ Hex) as [Huid' Hdoc']. split.
    + intros uid. rewrite Huid', Huid. unfold loadedUnder. split.
      * intros [[?|Hd]|(t & d & Ht & Hd & Hu)]; [by left | |].
        -- apply list_elem_of_fmap in Hd as (d & -> & Hd).
           right. exists tagId, d. split_and!; [left | done..].
        -- right. exists t, d. split_and!; [by right | done..].
      * intros [?|(t & d & [->|Ht]%elem_of_cons & Hd & Hu)].
        -- by left; left.
        -- left; right. apply list_elem_of_fmap. by exists d.
        -- right. by exists t, d.
    + intros d [[?|Hd]%Hdoc|(t & Ht & Hd)]%Hdoc'.
      * by left.
      * right. exists tagId. split; [left | done].
      * right. exists t. split; [by right | done].
Qed.

(** Deduplication loses no document and invents none: a uid is in the result
    of [getDocsForTags] exactly when a document with that uid is loaded under
    one of the tag ids, and every returned document is one loaded under one
    of them. Without tag ids, or when none of them is a key of the map, the
    result is empty. *)
Theorem getDocsForTags_members (tagIds : list string)
    (docsByTagId : gmap string (list DocumentMetadata)) :
  (∀ uid, uid ∈ document_uid <$> getDocsForTags tagIds docsByTagId ↔
          loadedUnder docsByTagId tagIds uid) ∧
  (∀ d, d ∈ getDocsForTags tagIds docsByTagId →
        ∃ tagId, tagId ∈ tagIds ∧ d ∈ default [] (docsByTagId !! tagId)) ∧
  ((∀ tagId, tagId ∈ tagIds → docsByTagId !! tagId = None) →
   getDocsForTags tagIds docsByTagId = []).
Proof.
  assert (Hgen : (∀ uid, uid ∈ document_uid <$> getDocsForTags tagIds docsByTagId ↔
                         loadedUnder docsByTagId tagIds uid) ∧
                 (∀ d, d ∈ getDocsForTags tagIds docsByTagId →
                       ∃ tagId, tagId ∈ tagIds
                                ∧ d ∈ default [] (docsByTagId !! tagId))).
  { unfold getDocsForTags. destruct tagIds as [|tagId tagIds].
    - split; [| by intros ? ?%elem_of_nil]. intros uid. simpl. rewrite elem_of_nil.
      split; [done |]. by intros (? & ? & []%elem_of_nil & _).
    - destruct (fold_tags_spec docsByTagId (tagId :: tagIds) _ seenExact_init)
        as [Huid Hdoc]. split.
      + intros uid. rewrite Huid. simpl. rewrite elem_of_nil. tauto.
      + intros d [[]%elem_of_nil|?]%Hdoc. done. }
  destruct Hgen as [Huid Hdoc]. split_and!; [done | done |].
  intros Hnone. destruct (getDocsForTags tagIds docsByTagId) as [|d l] eqn:E; [done |].
  destruct (Hdoc d) as (tagId & Ht & Hd); [left |].
  rewrite (Hnone _ Ht) in Hd. by apply elem_of_nil in Hd.
Qed.

Section Traversal.
Variable getChildren : TagNode → list TagNode.
Variable docsByTagId : gmap string (list DocumentMetadata).

Lemma docsLoop_members fuel : ∀ stack st out,
  seenExact st →
  docsLoop getChildren docsByTagId fuel stack st = Some out →
  ∀ uid, uid ∈ document_uid <$> out ↔
         uid ∈ document_uid <$> st.2 ∨
         ∃ s n, s ∈ stack ∧ reach getChildren s n
                ∧ loadedUnder docsByTagId (tagIdsHere n) uid.
Proof.
  induction fuel as [|fuel IH]; intros [|cur rest] st out Hst; simpl.
  - intros [= <-] uid. split; [by left |].
    by intros [?|(? & ? & []%elem_of_nil & _)].
  - done.
  - intros [= <-] uid. split; [by left |].
    by intros [?|(? & ? & []%elem_of_nil & _)].
  - intros Hloop uid.
    destruct (fold_pushUnseen_spec
                (getDocsForTags (tagIdsHere cur) docsByTagId) st Hst)
      as (Hex & Huid & _).
    rewrite (IH _ _ _ Hex Hloop uid), Huid.
    destruct (getDocsForTags_members (tagIdsHere cur) docsByTagId) as (Hget & _ & _).
    rewrite Hget. split.
    + intros [[?|Hcur]|(s & n & Hs & Hn & Hu)]; [by left | |].
      * right. exists cur, cur. split_and!; [left | constructor | done].
      * right. apply elem_of_app in Hs as [Hs|Hs].
        -- rewrite elem_of_reverse in Hs. exists cur, n.
           split_and!; [left | exact (reach_step _ _ s _ Hs Hn) | done].
        -- exists s, n. split_and!; [by right | done..].
    + intros [?|(s & n & [->|Hs]%elem_of_cons & Hn & Hu)]; [by left; left | |].
      * inversion Hn as [|? c ? Hc Hcn]; subst; [by left; right |].
        right. exists c, n. split_and!; [| done..].
        apply elem_of_app. left. by apply elem_of_reverse.
      * right. exists s, n. split_and!; [| done..].
        apply elem_of_app. by right.
Qed.

(** [docsInSubtree] collects exactly the documents of the nodes met from the
    root through [getChildren]: a uid is in the result when, and only when,
    a document with that uid is loaded under a non-empty tag id stored at
    such a node. *)
Theorem docsInSubtree_members (fuel : nat) (root : TagNode)
    (out : list DocumentMetadata) :
  docsInSubtree getChildren docsByTagId fuel root = Some out →
  ∀ uid, uid ∈ document_uid <$> out ↔
         ∃ n, reach getChildren root n
              ∧ loadedUnder docsByTagId (tagIdsHere n) uid.
Proof.
  intros Hout uid. unfold docsInSubtree in Hout.
  rewrite (docsLoop_members _ _ _ _ seenExact_init Hout uid). simpl.
  rewrite elem_of_nil. split.
  - intros [[]|(s & n & ->%list_elem_of_singleton & Hn & Hu)]. by exists n.
  - intros (n & Hn & Hu). right. exists root, n. split_and!; [left | done..].
Qed.

End Traversal.

Section ToggleAndCheckbox.
Variable getChildren : TagNode → list TagNode.
Variable docsByTagId : gmap string (list DocumentMetadata).
Variables (fuel : nat) (c : TagNode) (tag : Tag) (subtree : list DocumentMetadata).
Hypothesis primary : getPrimaryTag c = Some tag.
Hypothesis loaded : docsInSubtree getChildren docsByTagId fuel c = Some subtree.

Lemma toggle_updater (prev : gmap string Tag) :
  filter (eligibleFor tag) subtree ≠ [] →
  toggleFolderSelection getChildren docsByTagId fuel c prev
  = Some (toggleUpdater tag (filter (eligibleFor tag) subtree) prev).
Proof.
  intros Hne. unfold toggleFolderSelection. rewrite primary, loaded. simpl.
  by destruct (filter (eligibleFor tag) subtree).
Qed.

Lemma checkbox_of (p : TreeProps) :
  folderCheckbox getChildren docsByTagId fuel p c
  = Some (folderChecked p c subtree, folderIndeterminate p c subtree).
Proof. unfold folderCheckbox. by rewrite loaded. Qed.




End ToggleAndCheckbox.

Lemma getDocsForTags_members_witness :
  "d2" ∈ document_uid <$> getDocsForTags ["t-dev"] Examples.exDocsByTagId ∧
  getDocsForTags ["t-none"] Examples.exDocsByTagId = [].
Proof.
  split.
  - apply (proj1 (getDocsForTags_members ["t-dev"] Examples.exDocsByTagId)).
    exists "t-dev", Examples.doc2. split; [left | split; [left | reflexivity]].
  - apply (proj2 (proj2 (getDocsForTags_members ["t-none"] Examples.exDocsByTagId))).
    intros tagId ->%list_elem_of_singleton. reflexivity.
Defined.

Lemma docsInSubtree_members_witness :
  "d3" ∈ document_uid <$> [Examples.doc1; Examples.doc2; Examples.doc3].
Proof.
  apply (docsInSubtree_members Examples.childNodes Examples.exDocsByTagId 2
           Examples.nodeSix _ eq_refl).
  exists Examples.nodeDev. split.
  - apply (reach_step _ _ Examples.nodeDev); [simpl; left | constructor].
  - exists "t-dev", Examples.doc3.
    split; [simpl; left | split; [right; left | reflexivity]].
Defined.




End DocumentLibraryTreeMoreFacts.

(** ** More on the share dialog: the pending list and the requests sent *)
Module ShareRecipientsFacts.
Import JsString TagTree ShareAddTab ShareRecipients ShareAddTabFacts.

Lemma handleAddRecipient_ids r prev :
  target_id <$> handleAddRecipient r prev =
  if bool_decide (target_id r ∈ target_id <$> prev)
  then target_id <$> prev else (target_id <$> prev) ++ [target_id r].
Proof.
  unfold handleAddRecipient.
  assert (H : Exists (λ item, target_id item = target_id r) prev
              ↔ target_id r ∈ target_id <$> prev).
  { rewrite Exists_exists, list_elem_of_fmap. naive_solver. }
  repeat case_bool_decide; try tauto; by rewrite ?fmap_app.
Qed.

Lemma handleRelationChange_ids id rel prev :
  target_id <$> handleRelationChange id rel prev = target_id <$> prev.
Proof.
  unfold handleRelationChange. rewrite <- list_fmap_compose.
  apply list_fmap_ext. intros _ item _. simpl. by case_decide.
Qed.

Lemma handleRemoveRecipient_ids id prev :
  target_id <$> handleRemoveRecipient id prev
  = filter (λ x, x ≠ id) (target_id <$> prev).
Proof.
  unfold handleRemoveRecipient. induction prev as [|item prev IH]; [done |].
  rewrite fmap_cons, !filter_cons. case_decide; [rewrite fmap_cons |]; by rewrite IH.
Qed.

(** The pending list never holds a recipient twice: starting from the empty
    list, after any sequence of additions, relation changes and removals
    the [target_id]s of the list are distinct, so [selectedIds] has as many
    elements as the list. *)
Theorem pending_recipients_distinct (events : list RecipientEvent) :
  let pending := fold_left applyEvent events [] in
  NoDup (target_id <$> pending) ∧
  JsSet.size (selectedIds pending) = length pending.
Proof.
  intros pending.
  assert (Hnd : NoDup (target_id <$> pending)).
  { unfold pending. generalize (NoDup_nil_2 (A := string)).
    change (@nil string) with (target_id <$> @nil Recipient).
    generalize (@nil Recipient). induction events as [|ev events IH];
      intros l Hl; simpl; [done |].
    apply IH. destruct ev as [r|id rel|id]; simpl.
    - rewrite handleAddRecipient_ids. case_bool_decide as Hin; [done |].
      apply NoDup_app. split_and!; [done | | apply NoDup_singleton].
      by intros x Hx ->%list_elem_of_singleton.
    - by rewrite handleRelationChange_ids.
    - rewrite handleRemoveRecipient_ids. by apply NoDup_filter. }
  split; [done |]. unfold selectedIds, JsSet.size, JsSet.ofList.
  rewrite <- (length_fmap target_id pending).
  apply Permutation_length, NoDup_Permutation; [| done |].
  - apply JsSetFacts.fold_add_NoDup. constructor.
  - intros x. rewrite JsSetFacts.fold_add_elem. unfold JsSet.empty.
    rewrite elem_of_nil. tauto.
Qed.

(** Adding a recipient whose id is already pending changes nothing, also when
    the relation differs; adding twice is adding once; removing a recipient
    just added to a list that did not hold its id gives the list back. *)
Theorem add_remove_recipient (r : Recipient) (prev : list Recipient) :
  (target_id r ∈ target_id <$> prev → handleAddRecipient r prev = prev) ∧
  handleAddRecipient r (handleAddRecipient r prev) = handleAddRecipient r prev ∧
  target_id r ∉ target_id <$> handleRemoveRecipient (target_id r) prev ∧
  (target_id r ∉ target_id <$> prev →
   handleRemoveRecipient (target_id r) (handleAddRecipient r prev) = prev).
Proof.
  assert (Hex : ∀ l, Exists (λ item, target_id item = target_id r) l
                     ↔ target_id r ∈ target_id <$> l).
  { intros l. rewrite Exists_exists, list_elem_of_fmap. naive_solver. }
  split_and!.
  - intros Hin. unfold handleAddRecipient.
    by rewrite bool_decide_eq_true_2 by by apply Hex.
  - unfold handleAddRecipient at 1. rewrite bool_decide_eq_true_2; [done |].
    apply Hex. rewrite handleAddRecipient_ids. case_bool_decide; [done |].
    apply elem_of_app. right. left.
  - rewrite handleRemoveRecipient_ids. by intros [? _]%list_elem_of_filter.
  - intros Hout. unfold handleAddRecipient.
    rewrite bool_decide_eq_false_2 by by rewrite Hex.
    unfold handleRemoveRecipient. rewrite filter_app, filter_cons_False by naive_solver.
    rewrite filter_nil, app_nil_r. clear Hex.
    induction prev as [|item prev IH]; [done |].
    rewrite fmap_cons, not_elem_of_cons in Hout. destruct Hout as [Hne Hout].
    rewrite filter_cons_True by done. by rewrite IH.
Qed.

(** A relation change keeps the recipients, their order and their ids; it
    sets the relation of the entries with the given id and leaves the other
    entries as they are. For an id that is not pending it does nothing. *)
Theorem relation_change_spec (id rel : string) (prev : list Recipient) :
  target_id <$> handleRelationChange id rel prev = target_id <$> prev ∧
  (∀ i item, prev !! i = Some item →
     handleRelationChange id rel prev !! i =
     Some (if decide (target_id item = id) then mkRecipient id rel else item)) ∧
  (id ∉ target_id <$> prev → handleRelationChange id rel prev = prev).
Proof.
  split_and!.
  - apply handleRelationChange_ids.
  - intros i item Hi. unfold handleRelationChange.
    rewrite list_lookup_fmap, Hi. simpl. by case_decide; subst.
  - intros Hout. unfold handleRelationChange.
    induction prev as [|item prev IH]; [done |].
    rewrite fmap_cons, not_elem_of_cons in Hout. destruct Hout as [Hne Hout].
    rewrite fmap_cons, IH by done. by rewrite decide_False.
Qed.

Section Requests.
Context {World : Type}.
Variable shareTag : string → Recipient → World → World * option JsError.
Variable t : string → option string → string.

(** The recording backend behaves as the backend it wraps, and records a
    prefix of the recipients: all of them when no request is rejected, and
    otherwise the ones up to and including the rejected one. *)
Lemma shareAll_logged tagId (rs : list Recipient) : ∀ w log,
  ∃ sent,
    shareAll (World * list Recipient) (logged shareTag) tagId rs (w, log)
    = (((shareAll World shareTag tagId rs w).1, log ++ sent),
       (shareAll World shareTag tagId rs w).2) ∧
    sent `prefix_of` rs ∧
    match (shareAll World shareTag tagId rs w).2 with
    | None => sent = rs
    | Some e =>
        ∃ before r,
          sent = before ++ [r] ∧
          (shareAll World shareTag tagId before w).2 = None ∧
          (shareTag tagId r (shareAll World shareTag tagId before w).1).2 = Some e
    end.
Proof.
  induction rs as [|r rs IH]; intros w log.
  - exists []. simpl. by rewrite app_nil_r.
  - cbn [shareAll]. unfold logged at 1. cbn [fst snd].
    destruct (shareTag tagId r w) as [w' [e|]] eqn:E.
    + exists [r]. split_and!; [done | by apply prefix_cons, prefix_nil |].
      exists [], r. simpl. by rewrite E.
    + destruct (IH w' (log ++ [r])) as (sent & Hrun & Hpre & Hres).
      exists (r :: sent). rewrite Hrun, <- (assoc (++)).
      split_and!; [done | by apply prefix_cons |].
      destruct (shareAll World shareTag tagId rs w').2 as [e|]; [| by subst].
      destruct Hres as (before & x & -> & Hok & Hrej).
      exists (r :: before), x. split_and!; [done | |]; simpl; by rewrite E.
Qed.

(** [handleShare] sends the requests in the order of the pending list, one
    per recipient, and stops at the first rejection: the recipients asked
    for are a prefix of the pending list, the whole list when every request
    succeeds, and otherwise the recipients up to and including the one whose
    request was rejected. With an empty list no request is sent. *)
Theorem handleShare_requests (tag : Tag)
    (onShared : option (World → World * option JsError))
    (s : State) (w : World) :
  ∃ s' w' sent,
    handleShare (World * list Recipient) (logged shareTag) t tag
      (onWorld <$> onShared) (s, (w, []))
    = ((s', (w', sent)), Normal tt) ∧
    sent `prefix_of` pendingRecipients s ∧
    match (shareAll World shareTag (tag_id tag) (pendingRecipients s) w).2 with
    | None => sent = pendingRecipients s
    | Some e =>
        ∃ before r,
          sent = before ++ [r] ∧
          (shareAll World shareTag (tag_id tag) before w).2 = None ∧
          (shareTag (tag_id tag) r
             (shareAll World shareTag (tag_id tag) before w).1).2 = Some e
    end.
Proof.
  unfold handleShare. cbn [fst].
  destruct (pendingRecipients s) as [|r rs] eqn:Hp.
  { by exists s, w, []. }
  rewrite <- Hp.
  unfold mbind, Eff_bind, tryCatchFinally.
  unfold setIsSharing at 1, setShareError at 1, modifyState. cbn [fst snd].
  rewrite forOf_shareAll.
  destruct (shareAll_logged (tag_id tag) (pendingRecipients s) w [])
    as (sent & Hrun & Hpre & Hres).
  rewrite Hrun. simpl in *.
  destruct (shareAll World shareTag (tag_id tag) (pendingRecipients s) w).2
    as [e|].
  - unfold setShareError, setIsSharing, modifyState. cbn.
    by eexists _, _, sent.
  - unfold setPendingRecipients, setSearchQuery, setIsSharing, setShareError,
      modifyState, callWorld. cbn.
    destruct onShared as [f|]; cbn.
    + unfold onWorld. cbn.
      destruct (f _) as [w2 [e|]]; cbn; by eexists _, _, sent.
    + by eexists _, _, sent.
Qed.

(** [onShared] runs inside the [try]: when every request succeeded and the
    callback throws, the pending list and the search query are already
    cleared, the thrown value is reported through [shareError], and
    [handleShare] still returns normally. *)
Theorem handleShare_onShared_throws (tag : Tag)
    (onShared : World → World * option JsError)
    (s : State) (w w1 w2 : World) (e : JsError) :
  pendingRecipients s ≠ [] →
  shareAll World shareTag (tag_id tag) (pendingRecipients s) w = (w1, None) →
  onShared w1 = (w2, Some e) →
  handleShare World shareTag t tag (Some onShared) (s, w)
  = ((mkState "" [] false (Some (errorMessage t tag e)), w2), Normal tt).
Proof.
  intros Hne Hall Hthrow. unfold handleShare. cbn [fst].
  destruct (pendingRecipients s) as [|r rs] eqn:Hp; [done |]. clear Hne.
  unfold mbind, Eff_bind, tryCatchFinally.
  unfold setIsSharing at 1, setShareError at 1, modifyState. cbn [fst snd].
  rewrite forOf_shareAll, Hall.
  unfold setPendingRecipients, setSearchQuery, setIsSharing, setShareError,
    modifyState, callWorld. cbn. by rewrite Hthrow.
Qed.

End Requests.

Example handleAddRecipient_known_id :
  handleAddRecipient MoreExamples.aliceOwner [Examples.alice; Examples.bob]
  = [Examples.alice; Examples.bob].
Proof. reflexivity. Qed.

Lemma add_remove_recipient_witness :
  handleRemoveRecipient "bob" (handleAddRecipient Examples.bob [Examples.alice])
  = [Examples.alice] ∧
  handleAddRecipient MoreExamples.aliceOwner [Examples.alice; Examples.bob]
  = [Examples.alice; Examples.bob].
Proof.
  split.
  - apply (proj2 (proj2 (proj2 (add_remove_recipient Examples.bob [Examples.alice])))).
    intros Hin. apply list_elem_of_singleton in Hin. discriminate Hin.
  - apply (proj1 (add_remove_recipient MoreExamples.aliceOwner
                    [Examples.alice; Examples.bob])).
    left.
Defined.

Lemma relation_change_spec_witness :
  handleRelationChange "alice" "owner" [Examples.alice; Examples.bob] !! 0
  = Some MoreExamples.aliceOwner ∧
  handleRelationChange "carol" "owner" [Examples.alice; Examples.bob]
  = [Examples.alice; Examples.bob].
Proof.
  destruct (relation_change_spec "alice" "owner" [Examples.alice; Examples.bob])
    as (_ & Hat & _).
  destruct (relation_change_spec "carol" "owner" [Examples.alice; Examples.bob])
    as (_ & _ & Hnone).
  split.
  - apply (Hat 0 Examples.alice eq_refl).
  - apply Hnone. intros Hin.
    repeat (apply elem_of_cons in Hin as [Hin|Hin]; [discriminate Hin |]).
    by apply elem_of_nil in Hin.
Defined.

(** The request for [bob] is rejected: both requests were sent, in order. *)
Example handleShare_requests_rejectBob :
  (handleShare (nat * list Recipient) (logged Examples.rejectBob) Examples.tKey
     Examples.tagSix None (Examples.exState, (0, []))).1.2.2
  = [Examples.alice; Examples.bob].
Proof. reflexivity. Qed.

(** Every request is rejected: only the first one was sent. *)
Example handleShare_requests_rejectAll :
  (handleShare (nat * list Recipient) (logged Examples.rejectAll) Examples.tKey
     Examples.tagSix None (Examples.exState, (0, []))).1.2.2
  = [Examples.alice].
Proof. reflexivity. Qed.

Lemma handleShare_onShared_throws_witness :
  handleShare nat Examples.acceptAll Examples.tKey Examples.tagSix
    (Some MoreExamples.throwingCallback) (Examples.exState, 0)
  = ((mkState "" [] false (Some "documentLibraryShareDialog.shareError"), 2),
     Normal tt).
Proof.
  apply (handleShare_onShared_throws Examples.acceptAll Examples.tKey
           Examples.tagSix MoreExamples.throwingCallback Examples.exState 0 2 2
           (mkJsError None None None));
    [discriminate | reflexivity | reflexivity].
Defined.

End ShareRecipientsFacts.

(** ** Navigation: active entries, open groups, tab routes and the base URL *)
Module NavigationFacts.
Import JsString JsStringFacts JsMore Navigation.

Lemma startsWith_spec s : ∀ p, startsWith s p = true ↔ ∃ rest, s = p +:+ rest.
Proof.
  induction s as [|d s IH]; intros [|c p]; simpl.
  - split; [by exists "" | done].
  - split; [done | by intros [rest ?]].
  - split; [by exists (String d s) | done].
  - rewrite andb_true_iff, bool_decide_eq_true, IH. split.
    + intros [-> [rest ->]]. by exists rest.
    + intros [rest [= -> ->]]. split; [done | by exists rest].
Qed.

Lemma endsWith_spec s x : endsWith s x = true ↔ ∃ front, s = front +:+ x.
Proof.
  induction s as [|d s IH]; simpl.
  - rewrite orb_false_r, bool_decide_eq_true. split.
    + intros <-. by exists "".
    + intros [[|c front] H]; [done | discriminate H].
  - rewrite orb_true_iff, bool_decide_eq_true, IH. split.
    + intros [<-|[front ->]]; [by exists "" | by exists (String d front)].
    + intros [[|c front] H]; [by left | right]. injection H as -> ->.
      by exists front.
Qed.

Lemma head_split_free sep u :
  sep ∉ chars u → head (split sep u) = Some u.
Proof. intros H. by rewrite split_single. Qed.

(** A menu entry is active on its own path and on the paths below it, at a
    segment boundary, and nowhere else; a query string in the entry's url
    plays no part. *)
Theorem isActive_spec (pathname u q : string) :
  "?"%char ∉ chars u →
  (isActive pathname u = true ↔
   pathname = u ∨ ∃ rest, pathname = u +:+ "/" +:+ rest) ∧
  isActive pathname (u +:+ "?" +:+ q) = isActive pathname u.
Proof.
  intros Hu. split.
  - unfold isActive. rewrite head_split_free by done. simpl.
    rewrite orb_true_iff, bool_decide_eq_true, startsWith_spec.
    split; (intros [?|[rest ->]]; [by left | right; exists rest]);
      by rewrite string_app_assoc.
  - unfold isActive.
    change (u +:+ "?" +:+ q) with (u +:+ String "?" q).
    rewrite TagTreeMoreFacts.split_app_sep, (split_single "?" u) by done.
    done.
Qed.

Lemma isAnyChildActive_None pathname : isAnyChildActive pathname None = false.
Proof. done. Qed.

(** After the effect that follows a change of location, a group is open
    exactly when it was open before or one of the menu items with its key has
    an active child: the effect opens the groups of the current page and
    closes none. A click on a group flips its open state and no other, and
    two clicks restore every open state. *)
Theorem sidebar_groups (pathname : string)
    (menuItems : list SideBarNavigationElement) (prev : gmap string bool)
    (k : string) :
  isOpen (openActiveGroups pathname menuItems prev) k =
    isOpen prev k
    || bool_decide (Exists (λ it, key it = k ∧
                                  isAnyChildActive pathname (children it) = true)
                      menuItems) ∧
  (∀ k', isOpen (toggleGroup k prev) k' =
         if decide (k' = k) then negb (isOpen prev k) else isOpen prev k') ∧
  (∀ k', isOpen (toggleGroup k (toggleGroup k prev)) k' = isOpen prev k').
Proof.
  assert (Htoggle : ∀ m k', isOpen (toggleGroup k m) k' =
            if decide (k' = k) then negb (isOpen m k) else isOpen m k').
  { intros m k'. unfold isOpen, toggleGroup. case_decide as Hk.
    - subst. by rewrite lookup_insert_eq.
    - by rewrite lookup_insert_ne. }
  split_and!; [| done |].
  - unfold openActiveGroups. revert prev.
    induction menuItems as [|it items IH]; intros prev.
    + simpl. by rewrite orb_false_r.
    + cbn [fold_left]. rewrite IH. clear IH.
      assert (Hstep : isOpen
          (match children it with
           | Some cs => if isAnyChildActive pathname (Some cs)
                        then <[key it := true]> prev else prev
           | None => prev
           end) k
          = isOpen prev k
            || bool_decide (key it = k ∧
                            isAnyChildActive pathname (children it) = true)).
      { destruct (children it) as [cs|]; simpl.
        - destruct (existsb _ cs) eqn:E; unfold isOpen.
          + destruct (decide (key it = k)) as [->|Hne].
            * rewrite lookup_insert_eq. simpl.
              rewrite bool_decide_eq_true_2 by done. by rewrite orb_true_r.
            * rewrite lookup_insert_ne by done.
              rewrite bool_decide_eq_false_2 by tauto. by rewrite orb_false_r.
          + rewrite bool_decide_eq_false_2 by (intros [_ ?]; done).
            by rewrite orb_false_r.
        - rewrite bool_decide_eq_false_2 by (intros [_ ?]; done).
          by rewrite orb_false_r. }
      rewrite Hstep, <- orb_assoc. f_equal.
      apply eq_true_iff_eq. rewrite orb_true_iff, !bool_decide_eq_true.
      by rewrite Exists_cons.
  - intros k'. rewrite !Htoggle.
    destruct (decide (k' = k)) as [->|]; [| done].
    rewrite decide_True by done. apply negb_involutive.
Qed.

Lemma join_cons_char sep c h l :
  join sep (String c h :: l) = String c (join sep (h :: l)).
Proof. by destruct l. Qed.

(** Joining what [split] returned gives the string back. *)
Lemma join_split sep s : join (String sep "") (split sep s) = s.
Proof.
  induction s as [|c s IH]; simpl; [done |].
  pose proof (split_not_nil sep s) as Hne.
  destruct (decide (c = sep)) as [->|].
  - destruct (split sep s) as [|h l]; [done |].
    change (join (String sep "") ("" :: h :: l))
      with (String sep (join (String sep "") (h :: l))).
    by rewrite IH.
  - destruct (split sep s) as [|h l]; [done |].
    by rewrite join_cons_char, IH.
Qed.

Lemma last_snoc_split {A} (l : list A) :
  l ≠ [] → ∃ init x, l = init ++ [x] ∧ last l = Some x.
Proof.
  intros Hne. destruct (decide (l = [])) as [|_]; [done |].
  induction l as [|a l IH] using rev_ind; [done |].
  exists l, a. by rewrite last_snoc.
Qed.

(** The route of a tab is the last segment of its absolute path: it holds no
    slash, the absolute path is the route after a prefix that is empty or
    ends with a slash, and for a path [a/b] with no slash in [b] it is [b]. *)
Theorem getRelativePath_spec (p : string) :
  "/"%char ∉ chars (getRelativePath p) ∧
  (∃ prefix, p = prefix +:+ getRelativePath p ∧
             (prefix = "" ∨ endsWith prefix "/" = true)) ∧
  (∀ a b, "/"%char ∉ chars b → getRelativePath (a +:+ "/" +:+ b) = b).
Proof.
  unfold getRelativePath.
  destruct (last_snoc_split (split "/" p) (split_not_nil "/" p))
    as (init & x & Hsplit & Hlast).
  rewrite Hlast. simpl. split_and!.
  - pose proof (split_sep_free "/" p) as Hfree. rewrite Hsplit in Hfree.
    by apply Forall_app in Hfree as [_ [? _]%Forall_cons].
  - pose proof (join_split "/" p) as Hjoin. rewrite Hsplit in Hjoin.
    destruct init as [|y init].
    + exists "". split; [by rewrite <- Hjoin | by left].
    + rewrite (join_snoc "/" (y :: init)) in Hjoin by done.
      exists (join "/" (y :: init) +:+ "/"). split.
      * by rewrite string_app_assoc.
      * right. apply endsWith_spec. by exists (join "/" (y :: init)).
  - intros a b Hb.
    change (a +:+ "/" +:+ b) with (a +:+ String "/" b).
    rewrite TagTreeMoreFacts.split_app_sep, (split_single "/" b) by done.
    by rewrite last_snoc.
Qed.

(** The base URL always ends with a slash: a [BASE_URL] that ends with one is
    kept as it is, any other gets one appended, and a missing one is ["/"];
    normalising the result again changes nothing. *)
Theorem baseUrl_spec (BASE_URL : option string) :
  endsWith (baseUrl BASE_URL) "/" = true ∧
  (∀ b, BASE_URL = Some b → endsWith b "/" = true → baseUrl BASE_URL = b) ∧
  (∀ b, BASE_URL = Some b → endsWith b "/" = false →
        baseUrl BASE_URL = b +:+ "/") ∧
  baseUrl None = "/" ∧
  baseUrl (Some (baseUrl BASE_URL)) = baseUrl BASE_URL.
Proof.
  assert (Hends : endsWith (baseUrl BASE_URL) "/" = true).
  { unfold baseUrl. destruct (endsWith (default "/" BASE_URL) "/") eqn:E; [done |].
    apply endsWith_spec. by eexists. }
  split_and!; [done | | | done |].
  - intros b -> Hb. unfold baseUrl. simpl. by rewrite Hb.
  - intros b -> Hb. unfold baseUrl. simpl. by rewrite Hb.
  - unfold baseUrl at 1. simpl. by rewrite Hends.
Qed.

Example isActive_prefix_only :
  isActive "/teams/4/members" "/teams?tab=mine" = true ∧
  isActive "/teamsters" "/teams?tab=mine" = false.
Proof. split; reflexivity. Qed.

Lemma isActive_spec_witness :
  isActive "/teams/4/members" "/teams?tab=mine" = true.
Proof.
  destruct (isActive_spec "/teams/4/members" "/teams" "tab=mine") as [Hiff Hquery].
  - intros Hin.
    repeat (apply elem_of_cons in Hin as [Hin|Hin]; [discriminate Hin |]).
    by apply elem_of_nil in Hin.
  - change ("/teams?tab=mine") with ("/teams" +:+ "?" +:+ "tab=mine").
    rewrite Hquery. apply Hiff. right. by exists "4/members".
Defined.

Example sidebar_opens_group :
  isOpen (openActiveGroups "/knowledge"
            [MoreExamples.teamsEntry; MoreExamples.knowledgeGroup] ∅) "knowledge"
  = true.
Proof. reflexivity. Qed.

Example getRelativePath_members :
  getRelativePath "/team/4/members" = "members".
Proof. reflexivity. Qed.

Lemma getRelativePath_spec_witness :
  getRelativePath ("/team/4" +:+ "/" +:+ "members") = "members".
Proof.
  apply (proj2 (proj2 (getRelativePath_spec ""))).
  intros Hin.
  repeat (apply elem_of_cons in Hin as [Hin|Hin]; [discriminate Hin |]).
  by apply elem_of_nil in Hin.
Defined.

Example baseUrl_examples :
  baseUrl None = "/" ∧ baseUrl (Some "/fred") = "/fred/" ∧
  baseUrl (Some "/fred/") = "/fred/" ∧ baseUrl (Some "") = "/".
Proof. repeat split. Qed.

Lemma baseUrl_spec_witness : baseUrl (Some "/fred") = "/fred" +:+ "/".
Proof.
  by apply (proj1 (proj2 (proj2 (baseUrl_spec (Some "/fred")))) "/fred").
Defined.

End NavigationFacts.

(** ** Members: pages of the members table and display names *)
Module MembersFacts.
Import JsString JsStringFacts JsMore Members.

Lemma slice_window {A} (l : list A) (from size : nat) :
  slice l (Z.of_nat from) (Z.of_nat from + Z.of_nat size)
  = take size (drop from l).
Proof.
  unfold slice, relativeIndex.
  rewrite !bool_decide_eq_false_2 by lia.
  destruct (decide (from ≤ length l)) as [Hle|Hgt].
  - rewrite (Z.min_l (Z.of_nat from)) by lia. rewrite Nat2Z.id.
    destruct (decide (from + size ≤ length l)) as [Hle'|Hgt'].
    + rewrite Z.min_l by lia. f_equal. lia.
    + rewrite Z.min_r by lia.
      rewrite (take_ge (drop from l) size) by (rewrite length_drop; lia).
      apply take_ge. rewrite length_drop. lia.
  - rewrite !Z.min_r by lia. rewrite Nat2Z.id.
    rewrite !(drop_ge l) by lia. by rewrite !take_nil.
Qed.

(** The pages of the members table: with a positive page size every page
    holds at most that many members, the member at position [i] of the
    sorted list is at position [i mod size] of page [i / size], and a page past
    the end is empty; a page size that is not positive shows the whole
    list. *)
Theorem paginatedMembers_spec {A} (sortedMembers : list A) (rowsPerPage : Z) :
  ((0 < rowsPerPage)%Z →
   let size := Z.to_nat rowsPerPage in
   (∀ page : nat,
      length (paginatedMembers sortedMembers (Z.of_nat page) rowsPerPage) ≤ size) ∧
   (∀ i : nat,
      paginatedMembers sortedMembers (Z.of_nat (i / size)) rowsPerPage
        !! (i mod size) = sortedMembers !! i) ∧
   (∀ page : nat,
      length sortedMembers ≤ page * size →
      paginatedMembers sortedMembers (Z.of_nat page) rowsPerPage = [])) ∧
  ((rowsPerPage ≤ 0)%Z →
   ∀ page, paginatedMembers sortedMembers page rowsPerPage = sortedMembers).
Proof.
  split.
  - intros Hpos size.
    assert (Hpage : ∀ page : nat,
              paginatedMembers sortedMembers (Z.of_nat page) rowsPerPage
              = take size (drop (page * size) sortedMembers)).
    { intros page. unfold paginatedMembers. rewrite bool_decide_eq_true_2 by done.
      assert (Hr : rowsPerPage = Z.of_nat size) by (unfold size; lia).
      clearbody size. subst rowsPerPage.
      replace (Z.of_nat page * Z.of_nat size)%Z with (Z.of_nat (page * size))
        by lia.
      apply slice_window. }
    assert (Hsize : size ≠ 0) by (unfold size; lia).
    split_and!.
    + intros page. rewrite Hpage, length_take. lia.
    + intros i. rewrite Hpage.
      rewrite lookup_take_lt by by apply Nat.mod_upper_bound.
      rewrite lookup_drop. f_equal.
      pose proof (Nat.div_mod i size Hsize). lia.
    + intros page Hlen. rewrite Hpage, drop_ge by done. apply take_nil.
  - intros Hle page. unfold paginatedMembers.
    by rewrite bool_decide_eq_false_2 by lia.
Qed.

(** A string that is empty or starts with a character that is not white
    space. *)
Lemma trimStart_fixed s :
  match s with "" => True | String c _ => isWhiteSpace c = false end →
  trimStart s = s.
Proof. destruct s as [|c s]; [done |]. simpl. by intros ->. Qed.

Lemma trimStart_head s :
  match trimStart s with "" => True | String c _ => isWhiteSpace c = false end.
Proof.
  induction s as [|c s IH]; simpl; [done |].
  by destruct (isWhiteSpace c) eqn:E.
Qed.

Lemma trimEnd_head s :
  match s with "" => True | String c _ => isWhiteSpace c = false end →
  match trimEnd s with "" => True | String c _ => isWhiteSpace c = false end.
Proof.
  destruct s as [|c s]; [done |]. simpl. intros Hc.
  destruct (trimEnd s); [by rewrite Hc | done].
Qed.

Lemma trimEnd_idem s : trimEnd (trimEnd s) = trimEnd s.
Proof.
  induction s as [|c s IH]; [done |]. simpl.
  destruct (trimEnd s) as [|d r] eqn:E.
  - destruct (isWhiteSpace c) eqn:Hc; [done |]. simpl. by rewrite Hc.
  - change (trimEnd (String c (String d r)))
      with (match trimEnd (String d r) with
            | "" => if isWhiteSpace c then "" else String c ""
            | r' => String c r'
            end).
    by rewrite IH.
Qed.

(** Trimming a trimmed string changes nothing. *)
Lemma trim_idem s : trim (trim s) = trim s.
Proof.
  unfold trim.
  rewrite (trimStart_fixed (trimEnd (trimStart s)))
    by apply trimEnd_head, trimStart_head.
  apply trimEnd_idem.
Qed.

Lemma blank_app s1 s2 : blank (s1 +:+ s2) ↔ blank s1 ∧ blank s2.
Proof. unfold blank. by rewrite chars_app, Forall_app. Qed.

Lemma blank_join_space l : blank (join " " l) ↔ Forall blank l.
Proof.
  induction l as [|x l IH]; [by split; constructor |].
  rewrite Forall_cons. destruct l as [|y l].
  - simpl. split; [by intros ?; split; [| constructor] | by intros [? _]].
  - change (join " " (x :: y :: l)) with (x +:+ " " +:+ join " " (y :: l)).
    rewrite !blank_app, IH.
    assert (blank " ") by (repeat constructor). tauto.
Qed.

Lemma blank_filterBoolean l : Forall blank (filterBoolean l) ↔ Forall blank l.
Proof.
  unfold filterBoolean. induction l as [|x l IH]; [done |].
  rewrite filter_cons, Forall_cons. destruct (decide (x ≠ "")) as [Hx|Hx].
  - by rewrite Forall_cons, IH.
  - apply dec_stable in Hx as ->. rewrite IH.
    assert (blank "") by constructor. tauto.
Qed.

(** The name shown for a user: the [username] whenever the user has one,
    even an empty one; without a [username], the first and last names that
    are present, joined by a space and trimmed, unless that leaves nothing,
    in which case the [id]. Without a [username] the name shown is empty only
    if the [id] is. *)
Theorem getUserDisplayName_spec (user : UserSummary) :
  (∀ n, username user = Some n → getUserDisplayName user = n) ∧
  (username user = None →
   let names := option_list (first_name user) ++ option_list (last_name user) in
   (Forall blank names → getUserDisplayName user = user_id user) ∧
   (¬ Forall blank names →
    getUserDisplayName user = fullName user ∧
    fullName user ≠ "" ∧ trim (fullName user) = fullName user) ∧
   (user_id user ≠ "" → getUserDisplayName user ≠ "")).
Proof.
  unfold getUserDisplayName. split; [by intros n -> |].
  intros Hname. rewrite Hname. set (names := _ ++ _).
  assert (Hblank : truthy (fullName user) = true ↔ ¬ Forall blank names).
  { unfold fullName. fold names.
    by rewrite trim_truthy, blank_join_space, blank_filterBoolean. }
  split_and!.
  - intros Hall. destruct (truthy (fullName user)) eqn:E; [| done].
    destruct Hblank as [Hsome _]. by destruct Hsome.
  - intros Hsome. apply Hblank in Hsome. rewrite Hsome.
    split_and!; [done | by apply bool_decide_eq_true in Hsome |].
    unfold fullName. apply trim_idem.
  - intros Hid. destruct (truthy (fullName user)) eqn:E; [| done].
    by apply bool_decide_eq_true in E.
Qed.

Example paginatedMembers_pages :
  paginatedMembers [1; 2; 3; 4; 5] 0 2 = [1; 2] ∧
  paginatedMembers [1; 2; 3; 4; 5] 2 2 = [5] ∧
  paginatedMembers [1; 2; 3; 4; 5] 3 2 = [] ∧
  paginatedMembers [1; 2; 3; 4; 5] 1 (-1) = [1; 2; 3; 4; 5].
Proof. repeat split. Qed.

Lemma paginatedMembers_spec_witness :
  paginatedMembers [1; 2; 3; 4; 5] (Z.of_nat (4 / 2)) 2 !! (4 mod 2)
  = [1; 2; 3; 4; 5] !! 4.
Proof.
  destruct (paginatedMembers_spec [1; 2; 3; 4; 5] 2) as [Hpos _].
  destruct (Hpos ltac:(lia)) as (_ & Hat & _). apply (Hat 4).
Defined.

Example getUserDisplayName_examples :
  getUserDisplayName MoreExamples.userNamed = "Ada  Lovelace" ∧
  getUserDisplayName MoreExamples.userAnonymous = "u-2" ∧
  getUserDisplayName (mkUser "u-3" (Some "") (Some "Ada") None) = "".
Proof. repeat split. Qed.

Lemma getUserDisplayName_spec_witness :
  getUserDisplayName MoreExamples.userAnonymous = "u-2" ∧
  getUserDisplayName MoreExamples.userNamed ≠ "".
Proof.
  destruct (getUserDisplayName_spec MoreExamples.userAnonymous) as [_ Hanon].
  destruct (getUserDisplayName_spec MoreExamples.userNamed) as [_ Hnamed].
  split.
  - apply (Hanon eq_refl). repeat constructor.
  - apply (Hnamed eq_refl). discriminate.
Defined.

End MembersFacts.

(** ** The folder totals *)
Module FolderTotalsFacts.
Import JsString JsStringFacts TagTree TagTreeFacts DocumentLibraryTree FolderTotals.

Lemma join_good_inj l1 l2 :
  Forall (goodSeg "/") l1 → Forall (goodSeg "/") l2 →
  join "/" l1 = join "/" l2 → l1 = l2.
Proof.
  intros H1 H2 Heq.
  rewrite <- (segments_join "/" l1 H1), <- (segments_join "/" l2 H2).
  by rewrite Heq.
Qed.

Lemma descend_app ps : ∀ cur qs n,
  descend cur ps = Some n → descend cur (ps ++ qs) = descend n qs.
Proof.
  induction ps as [|seg rest IH]; intros cur qs n; simpl.
  - by intros [= ->].
  - destruct (mapGet seg (children cur)); [apply IH | done].
Qed.

Lemma sum_permutation (f : TagNode → Z) l1 l2 :
  l1 ≡ₚ l2 → foldr Z.add 0%Z (f <$> l1) = foldr Z.add 0%Z (f <$> l2).
Proof. induction 1; csimpl; lia. Qed.

Section Totals.
Variable getChildren : TagNode → list TagNode.
Variable perTagTotals : option (gmap string Z).
Variable documentsByTagId : gmap string (list DocumentMetadata).
Variable tree : TagNode.
Hypothesis tree_ok : treeOk [] tree.
Hypothesis getChildren_perm : ∀ n, getChildren n ≡ₚ (children n).*2.

Abbreviation selfCount := (selfCount perTagTotals documentsByTagId).
Abbreviation subtreeTotal := (subtreeTotal perTagTotals documentsByTagId).
Abbreviation compute := (compute getChildren perTagTotals documentsByTagId).
Abbreviation memoOk := (memoOk perTagTotals documentsByTagId tree).

Lemma subtreeTotal_eq n :
  subtreeTotal n
  = (selfCount n + foldr Z.add 0 (subtreeTotal <$> getChildren n))%Z.
Proof.
  rewrite (sum_permutation _ _ _ (getChildren_perm n)).
  rewrite <- list_fmap_compose. by destruct n.
Qed.

Lemma path_facts ps n :
  descend tree ps = Some n →
  full n = join "/" ps ∧ Forall (goodSeg "/") ps ∧ NoDup (children n).*1.
Proof.
  intros Hd. destruct (treeOk_descend tree ps [] n tree_ok Hd) as (Hn & Hgood & _).
  simpl in Hn. split_and!; [by apply treeOk_full | done | by destruct Hn].
Qed.

(** What one call of [compute] on the node at [ps] achieves, from enough
    fuel on. *)
Definition computes (ps : list string) (n : TagNode) : Prop :=
  ∀ m, memoOk m →
  ∃ k m',
    (∀ fuel, k ≤ fuel → compute fuel n m = Some (subtreeTotal n, m')) ∧
    memoOk m' ∧ m ⊆ m' ∧ is_Some (m' !! join "/" ps).

Lemma sumChildren_spec ps (cs : list TagNode) :
  Forall (λ c, ∃ key, computes (ps ++ [key]) c ∧ full c = join "/" (ps ++ [key])) cs →
  ∀ acc m, memoOk m →
  ∃ k m',
    (∀ fuel, k ≤ fuel →
     fold_left
       (λ acc child,
          match acc with
          | Some (childSum, m) =>
              match compute fuel child m with
              | Some (v, m') => Some ((childSum + v)%Z, m')
              | None => None
              end
          | None => None
          end)
       cs (Some (acc, m))
     = Some ((acc + foldr Z.add 0 (subtreeTotal <$> cs))%Z, m')) ∧
    memoOk m' ∧ m ⊆ m' ∧ Forall (λ c, is_Some (m' !! full c)) cs.
Proof.
  induction 1 as [|c cs (key & Hc & Hfull) _ IH]; intros acc m Hm.
  - exists 0, m. simpl.
    split_and!; [intros; f_equal; f_equal; lia | done | done | constructor].
  - destruct (Hc m Hm) as (k1 & m1 & Hrun1 & Hm1 & Hsub1 & Hsome1).
    destruct (IH (acc + subtreeTotal c)%Z m1 Hm1)
      as (k2 & m2 & Hrun2 & Hm2 & Hsub2 & Hsome2).
    exists (k1 `max` k2), m2. split_and!.
    + intros fuel Hfuel. cbn [fold_left].
      rewrite Hrun1 by lia. rewrite Hrun2 by lia. csimpl.
      f_equal. f_equal. lia.
    + done.
    + by etrans.
    + constructor; [| done]. rewrite Hfull.
      destruct Hsome1 as [v Hv]. exists v.
      by apply (lookup_weaken m1 m2).
Qed.

Lemma computes_node n : ∀ ps, descend tree ps = Some n → computes ps n.
Proof.
  induction n as [n IH] using TagNode_ind'. intros ps Hps m Hm.
  destruct (path_facts ps n Hps) as (Hfull & Hgood & Hnd).
  destruct (m !! join "/" ps) as [v|] eqn:Hmemo.
  - exists 1, m. split_and!; [| done | done | by rewrite Hmemo].
    intros [|fuel] Hfuel; [lia |]. simpl. rewrite Hfull, Hmemo.
    pose proof (Hm ps n Hps (mk_is_Some _ _ Hmemo) [] n eq_refl) as Hv.
    rewrite app_nil_r, Hmemo in Hv. by injection Hv as ->.
  - assert (Hkids : Forall (λ c, ∃ key, computes (ps ++ [key]) c
                                        ∧ full c = join "/" (ps ++ [key]))
                      (getChildren n)).
    { apply Forall_forall. intros c Hc. rewrite getChildren_perm in Hc.
      apply list_elem_of_fmap in Hc as ([key c'] & -> & Hkc). simpl.
      assert (Hd : descend tree (ps ++ [key]) = Some c').
      { rewrite (descend_app ps tree [key] n Hps). simpl.
        by rewrite (mapGet_NoDup key c'). }
      exists key. split; [| by apply path_facts].
      rewrite Forall_forall in IH. by apply (IH (key, c')). }
    destruct (sumChildren_spec ps (getChildren n) Hkids 0%Z m Hm)
      as (k & m' & Hrun & Hm' & Hsub & Hsome).
    set (total := (selfCount n + foldr Z.add 0 (subtreeTotal <$> getChildren n))%Z).
    assert (Htotal : total = subtreeTotal n) by (by rewrite subtreeTotal_eq).
    exists (S k), (<[join "/" ps := total]> m'). split_and!.
    + intros [|fuel] Hfuel; [lia |]. simpl. rewrite Hfull, Hmemo.
      unfold sumChildren. rewrite Hrun by lia. simpl.
      by rewrite <- Htotal.
    + intros pa a Hpa Hentry qs a' Ha'.
      destruct (path_facts pa a Hpa) as (_ & Hgood_pa & _).
      assert (Hboth : descend tree (pa ++ qs) = Some a').
      { by rewrite (descend_app pa tree qs a Hpa). }
      destruct (path_facts _ a' Hboth) as (_ & Hgood_all & _).
      destruct (decide (join "/" (pa ++ qs) = join "/" ps)) as [Heq|Hne].
      * apply join_good_inj in Heq; [| done..].
        rewrite Heq, lookup_insert_eq.
        rewrite Heq, Hps in Hboth. injection Hboth as <-. by rewrite Htotal.
      * rewrite lookup_insert_ne by done.
        destruct (decide (join "/" pa = join "/" ps)) as [Heq'|Hne'].
        -- apply join_good_inj in Heq'; [| done..]. subst pa.
           rewrite Hps in Hpa. injection Hpa as <-.
           destruct qs as [|key qs]; [by rewrite app_nil_r in Hne |].
           simpl in Ha'.
           destruct (mapGet key (children n)) as [c|] eqn:Hkey; [| done].
           assert (Hc : c ∈ getChildren n).
           { rewrite getChildren_perm. apply list_elem_of_fmap.
             exists (key, c). split; [done | by apply mapGet_elem]. }
           rewrite Forall_forall in Hsome. specialize (Hsome c Hc).
           assert (Hd : descend tree (ps ++ [key]) = Some c).
           { rewrite (descend_app ps tree [key] n Hps). simpl. by rewrite Hkey. }
           destruct (path_facts _ c Hd) as (Hfullc & _ & _).
           rewrite Hfullc in Hsome.
           pose proof (Hm' _ c Hd Hsome qs a' Ha') as Hres.
           by rewrite <- (assoc (++)) in Hres.
        -- rewrite lookup_insert_ne in Hentry by done.
           by apply (Hm' pa a Hpa Hentry qs a' Ha').
    + etrans; [exact Hsub |].
      destruct (m' !! join "/" ps) as [v|] eqn:Hv; [| by apply insert_subseteq].
      pose proof (Hm' ps n Hps (mk_is_Some _ _ Hv) [] n eq_refl) as Hres.
      rewrite app_nil_r, Hv in Hres. injection Hres as ->.
      by rewrite insert_id by by rewrite Htotal.
    + by rewrite lookup_insert_eq.
Qed.


End Totals.

(** SIX: 7 reported by the server, plus the two loaded documents of DEV. *)
Example totalsByNode_exTree :
  (totalsByNode Examples.childNodes MoreExamples.exTotals Examples.exDocsByTagId
     3 Examples.exTree ≫= λ m, m !! "SIX") = Some 9%Z ∧
  (totalsByNode Examples.childNodes MoreExamples.exTotals Examples.exDocsByTagId
     3 Examples.exTree ≫= λ m, m !! "") = Some 10%Z ∧
  totalsByNode Examples.childNodes MoreExamples.exTotals Examples.exDocsByTagId
    2 Examples.exTree = None.
Proof. repeat split. Qed.


End FolderTotalsFacts.
